(** * pkg/coverage: Go coverage data exposed in kcov format

    A shallow embedding of [pkg/coverage/coverage.go] and the properties of
    its catalog (files, synthetic PCs), its lookups and its counter drain.

    Modelling conventions.
    - Go [int] is the 64-bit signed integer of the platforms gVisor runs on;
      [uint64] and [uint32] values are [Z] with the wrap-around written out.
    - A Go map is a [gmap]; indexing a map at an absent key yields the zero
      value (the nil slice, [[]]).  The order in which [range] enumerates a
      map is chosen by the runtime: every loop over a map takes that order
      as an explicit argument.
    - A call either returns or panics ([outcome]); a returned Go [error] is
      part of the returned value.
    - The package-level variables ([coverdata.Cover], [globalData], [once])
      form the record [World], threaded through the operations.  The mutex
      [coverageMu] serialises the collection paths; the model is sequential
      and leaves it out. *)

From Stdlib Require Import ZArith Lia.
From stdpp Require Import gmap strings list sorting.
From stdpp Require Import pretty.

Local Open Scope Z_scope.

(** ** Machine integers *)

Definition uint64 (z : Z) : Z := z mod 2 ^ 64.

(** Conversion of an unbounded sum back to Go's signed [int]. *)
Definition int (z : Z) : Z := (z + 2 ^ 63) mod 2 ^ 64 - 2 ^ 63.

Definition int_add (a b : Z) : Z := int (a + b).

Definition uint64_shl (x : Z) (k : Z) : Z := uint64 (Z.shiftl x k).

Definition uint64_add (a b : Z) : Z := uint64 (a + b).

(** ** Outcomes of a call *)

Inductive io_error : Type :=
  | EOF                       (* io.EOF *)
  | io_failure (msg : string) (* any other error value *).

Inductive error : Type :=
  | file_index_out_of_range (i total : Z)
    (* "file index out of range: [%d] with length %d" *)
  | block_index_out_of_range (i total : Z)
    (* "block index out of range: [%d] with length %d" *).

Inductive panic : Type :=
  | runtime_index_out_of_range (i : Z) (len : Z)
    (* Go runtime: index out of range [i] with length len *)
  | write_panic (e : io_error)
    (* "Internal error writing PCs to kcov area: %v" *)
  | no_coverage_panic
    (* "kcov task work is registered, but no coverage data was found" *).

Inductive outcome (A : Type) : Type :=
  | Return (a : A)
  | Panics (p : panic).
Arguments Return {A} a.
Arguments Panics {A} p.

#[global] Instance io_error_eq_dec : EqDecision io_error.
Proof. solve_decision. Defined.

(** Length of a slice as a Go [int]. *)
Definition len {A} (l : list A) : Z := Z.of_nat (length l).

(** [l[i]] for a Go [int] index: panics outside [0 <= i < len(l)]. *)
Definition slice_index {A} (l : list A) (i : Z) : outcome A :=
  if decide (0 ≤ i) then
    match l !! Z.to_nat i with
    | Some x => Return x
    | None => Panics (runtime_index_out_of_range i (len l))
    end
  else Panics (runtime_index_out_of_range i (len l)).

(** [m[k]] for a map of slices: the nil slice at an absent key. *)
Definition map_index {A} (m : gmap string (list A)) (k : string) : list A :=
  default [] (m !! k).

(** ** Data *)

(** [coverdata.CoverBlock] of rules_go. *)
Record coverdata_CoverBlock : Type := {
  Line0 : Z; (* uint32 *)
  Col0 : Z;  (* uint16 *)
  Line1 : Z; (* uint32 *)
  Col1 : Z;  (* uint16 *)
  Stmts : Z  (* uint16 *)
}.

(** [coverdata.Cover]. *)
Record coverdata_Cover : Type := {
  Counters : gmap string (list Z);
  Blocks : gmap string (list coverdata_CoverBlock)
}.

Record CoverBlock : Type := {
  FirstLine : Z;
  FirstCol : Z;
  LastLine : Z;
  LastCol : Z
}.

(** The zero value [CoverBlock{}]. *)
Definition CoverBlock_zero : CoverBlock :=
  {| FirstLine := 0; FirstCol := 0; LastLine := 0; LastCol := 0 |}.

Record GlobalData : Type := {
  files : list string;
  syntheticPCs : list (list Z)
}.

Record World : Type := {
  Cover : coverdata_Cover;
  globalData : GlobalData;
  once : bool (* whether once.Do has already run its function *)
}.

Definition set_Counters (c : gmap string (list Z)) (s : World) : World :=
  {| Cover := {| Counters := c; Blocks := Blocks (Cover s) |};
     globalData := globalData s;
     once := once s |}.

Definition set_globalData (g : GlobalData) (s : World) : World :=
  {| Cover := Cover s; globalData := g; once := once s |}.

Definition set_once (b : bool) (s : World) : World :=
  {| Cover := Cover s; globalData := globalData s; once := b |}.

(** An admissible enumeration order of [range m]: every key once. *)
Definition range_order {A} (m : gmap string A) (keys : list string) : Prop :=
  keys ≡ₚ (map_to_list m).*1.

(** ** The catalog *)

Definition KcovAvailable (s : World) : bool :=
  bool_decide (Z.of_nat (size (Blocks (Cover s))) > 0).

Definition calculatePC (fileNum blockNum : Z) : Z :=
  uint64_add (uint64_shl (uint64 fileNum) 16) (uint64 blockNum).

(** [sort.Strings]: ascending byte-wise lexicographic order. *)
Definition sort_Strings (l : list string) : list string :=
  merge_sort String.le l.

(** [for i, x := range l { s = body i x s }], counting from [i]. *)
Fixpoint range_slice {A St} (body : nat → A → St → St) (i : nat) (l : list A) (s : St) : St :=
  match l with
  | [] => s
  | x :: l' => range_slice body (S i) l' (body i x s)
  end.

Definition InitCoverageData (range_Blocks : list string) (s : World) : World :=
  let g := globalData s in
  let files1 :=
    range_slice (λ _ file fs, fs ++ [file]) 0 range_Blocks (files g) in
  let files2 := sort_Strings files1 in
  let pcs2 :=
    range_slice
      (λ fileNum file spcs,
         let blocks := map_index (Blocks (Cover s)) file in
         let pcs :=
           range_slice
             (λ blockNum _ pcs, pcs ++ [calculatePC (Z.of_nat fileNum) (Z.of_nat blockNum)])
             0 blocks [] in
         spcs ++ [pcs])
      0 files2 (syntheticPCs g) in
  set_globalData {| files := files2; syntheticPCs := pcs2 |} s.

(** [once.Do(InitCoverageData)]. *)
Definition once_Do_InitCoverageData (range_Blocks : list string) (s : World) : World :=
  if once s then s else set_once true (InitCoverageData range_Blocks s).

Definition FileFromIndex (s : World) (i : Z) : outcome (string * option error) :=
  let total := len (files (globalData s)) in
  if decide (i > total) then
    Return ("", Some (file_index_out_of_range i total))
  else
    match slice_index (files (globalData s)) i with
    | Panics p => Panics p
    | Return f => Return (f, None)
    end.

Definition BlockFromIndex (s : World) (file : string) (i : Z)
  : outcome (CoverBlock * option error) :=
  let total := len (map_index (Blocks (Cover s)) file) in
  if decide (i > total) then
    Return (CoverBlock_zero, Some (block_index_out_of_range i total))
  else
    match slice_index (map_index (Blocks (Cover s)) file) i with
    | Panics p => Panics p
    | Return block =>
        Return ({| FirstLine := Line0 block;
                   FirstCol := Col0 block;
                   LastLine := Line1 block;
                   LastCol := Col1 block |}, None)
    end.

(** ** The sink *)

(** [io.Writer]: [Write] consumes a buffer and answers with the number of
    bytes it took and an optional error; the writer itself may change. *)
Class Writer (W : Type) : Type :=
  Write : W → list Byte.byte → W * (Z * option io_error).

(** One call of [w.Write] as the drain saw it: the buffer handed over and
    the answer. *)
Definition write_event : Type := (list Byte.byte * (Z * option io_error))%type.

Inductive ByteOrder : Type := LittleEndian | BigEndian.

Definition byte_of_Z (z : Z) : Byte.byte :=
  default Byte.x00 (Byte.of_N (Z.to_N (z mod 256))).

(** [binary.ByteOrder.PutUint64] into an 8-byte buffer. *)
Definition PutUint64 (o : ByteOrder) (v : Z) : list Byte.byte :=
  let little := (λ k : Z, byte_of_Z (Z.shiftr v (8 * k))) <$> [0; 1; 2; 3; 4; 5; 6; 7] in
  match o with
  | LittleEndian => little
  | BigEndian => reverse little
  end.

(** ** Hit counters *)

(** [atomic.LoadUint32(&counters[index])] where [counters] is the slice
    stored in the map under [file]; the slice shares its array with the
    map entry, so loads and stores go through the map. *)
Definition LoadUint32 (c : gmap string (list Z)) (file : string) (index : nat) : Z :=
  default 0 (map_index c file !! index).

Definition StoreUint32 (file : string) (index : nat) (v : Z)
    (c : gmap string (list Z)) : gmap string (list Z) :=
  alter (λ counters, <[index := v]> counters) file c.

(** [for index := 0; index < n; index++ { s = body index s }]. *)
Definition for_index {St} (body : nat → St → St) (n : nat) (s : St) : St :=
  foldl (λ s index, body index s) s (seq 0 n).

Definition ClearCoverageData (range_Counters : list string) (s : World) : World :=
  set_Counters
    (range_slice
       (λ _ file c,
          let counters := map_index c file in
          for_index (λ index c, StoreUint32 file index 0 c) (length counters) c)
       0 range_Counters (Counters (Cover s)))
    s.

(** ** The drain *)

(** Loops that may leave the function: an iteration either falls through
    to the next one or stops the whole call with its outcome. *)
Inductive flow (St R : Type) : Type :=
  | Continue (s : St)
  | Stop (r : R) (s : St).
Arguments Continue {St R} s.
Arguments Stop {St R} r s.

Fixpoint range_until {A St R} (body : nat → A → St → flow St R)
    (i : nat) (l : list A) (s : St) : flow St R :=
  match l with
  | [] => Continue s
  | x :: l' =>
      match body i x s with
      | Continue s' => range_until body (S i) l' s'
      | Stop r s' => Stop r s'
      end
  end.

Fixpoint for_index_until {St R} (body : nat → St → flow St R)
    (index : nat) (remaining : nat) (s : St) : flow St R :=
  match remaining with
  | O => Continue s
  | S k =>
      match body index s with
      | Continue s' => for_index_until body (S index) k s'
      | Stop r s' => Stop r s'
      end
  end.

(** The variables of [ConsumeCoverageData] that change while it runs: the
    counters, the writer, [total], and the log of the calls of [w.Write]. *)
Record Drain (W : Type) : Type := {
  d_counters : gmap string (list Z);
  d_sink : W;
  d_total : Z;
  d_writes : list write_event
}.
Arguments d_counters {W} _.
Arguments d_sink {W} _.
Arguments d_total {W} _.
Arguments d_writes {W} _.

(** What a call of [ConsumeCoverageData] leaves behind. *)
Record Flushed (W : Type) : Type := {
  result : outcome Z;
  world : World;
  sink : W;
  writes : list write_event
}.
Arguments result {W} _.
Arguments world {W} _.
Arguments sink {W} _.
Arguments writes {W} _.

Section drain.
Context {W : Type} `{!Writer W}.
(** [usermem.ByteOrder], declared outside this package. *)
Variable usermem_ByteOrder : ByteOrder.

(** The body of the inner loop, for [counters[index]] of [file]. *)
Definition consume_block (g : GlobalData) (fileIndex : nat) (file : string)
    (index : nat) (d : Drain W) : flow (Drain W) (outcome Z) :=
  if decide (LoadUint32 (d_counters d) file index = 0) then Continue d
  else
    let c := StoreUint32 file index 0 (d_counters d) in
    let stored := {| d_counters := c; d_sink := d_sink d;
                     d_total := d_total d; d_writes := d_writes d |} in
    match slice_index (syntheticPCs g) (Z.of_nat fileIndex) with
    | Panics p => Stop (Panics p) stored
    | Return row =>
        match slice_index row (Z.of_nat index) with
        | Panics p => Stop (Panics p) stored
        | Return pc =>
            let pcBuffer := PutUint64 usermem_ByteOrder pc in
            let '(w, (n, err)) := Write (d_sink d) pcBuffer in
            let log := d_writes d ++ [(pcBuffer, (n, err))] in
            match err with
            | Some e =>
                let d' := {| d_counters := c; d_sink := w;
                             d_total := d_total d; d_writes := log |} in
                if decide (e = EOF) then Stop (Return (int_add (d_total d) n)) d'
                else Stop (Panics (write_panic e)) d'
            | None =>
                Continue {| d_counters := c; d_sink := w;
                            d_total := int_add (d_total d) n; d_writes := log |}
            end
        end
    end.

Definition consume_file (g : GlobalData) (fileIndex : nat) (file : string)
    (d : Drain W) : flow (Drain W) (outcome Z) :=
  let counters := map_index (d_counters d) file in
  for_index_until (consume_block g fileIndex file) 0 (length counters) d.

Definition consume_files (g : GlobalData) (d : Drain W)
  : flow (Drain W) (outcome Z) :=
  range_until (consume_file g) 0 (files g) d.

Definition ConsumeCoverageData (range_Blocks : list string) (w : W) (s : World)
  : Flushed W :=
  let s1 := once_Do_InitCoverageData range_Blocks s in
  let d0 := {| d_counters := Counters (Cover s1); d_sink := w;
               d_total := 0; d_writes := [] |} in
  match consume_files (globalData s1) d0 with
  | Stop r d =>
      {| result := r; world := set_Counters (d_counters d) s1;
         sink := d_sink d; writes := d_writes d |}
  | Continue d =>
      {| result := if decide (d_total d = 0) then Panics no_coverage_panic
                   else Return (d_total d);
         world := set_Counters (d_counters d) s1;
         sink := d_sink d; writes := d_writes d |}
  end.
End drain.

(** ** Concrete writers *)

(** A kcov area with room for [room] more bytes: it takes what fits and
    answers [io.EOF] once a buffer does not fit whole. *)
Record kcov_area : Type := { area : list Byte.byte; room : Z }.

#[global] Instance kcov_area_Writer : Writer kcov_area := λ w p,
  if decide (len p ≤ room w) then
    ({| area := area w ++ p; room := room w - len p |}, (len p, None))
  else
    let n := Z.max 0 (room w) in
    ({| area := area w ++ take (Z.to_nat n) p; room := room w - n |}, (n, Some EOF)).

(** A writer whose transport is broken: every write fails. *)
Inductive broken_pipe : Type := Broken.

#[global] Instance broken_pipe_Writer : Writer broken_pipe := λ w _,
  (w, (0, Some (io_failure "broken pipe"))).

(** ** Auxiliary notions for the proofs *)

(** The inner loop of [ClearCoverageData] seen on one slice. *)
Definition zero_indices (l : list nat) (counters : list Z) : list Z :=
  foldl (λ cs index, <[index := 0]> cs) counters l.

(** One iteration of the outer loop of [ClearCoverageData]. *)
Definition clear_file (file : string) (c : gmap string (list Z))
  : gmap string (list Z) :=
  for_index (λ index c, StoreUint32 file index 0 c) (length (map_index c file)) c.

(** A log in which every call of [w.Write] succeeded. *)
Definition clean (l : list write_event) : Prop :=
  Forall (λ ev : write_event, ev.2.2 = None) l.

(** [total] after adding the byte counts of a log, starting from [t]. *)
Definition sum_written (t : Z) (l : list write_event) : Z :=
  foldl (λ t (ev : write_event), int_add t ev.2.1) t l.

(** How a stretch of the scan that starts in [d] can end: it falls
    through after successful writes only, or it stops at the first write
    that fails (with the outcome the error dictates), or it stops on an
    index panic. *)
Inductive drained {W} (d : Drain W) : flow (Drain W) (outcome Z) → Prop :=
  | drained_through (new : list write_event) (d' : Drain W) :
      d_writes d' = d_writes d ++ new →
      clean new →
      d_total d' = sum_written (d_total d) new →
      drained d (Continue d')
  | drained_index (new : list write_event) (i n : Z) (d' : Drain W) :
      d_writes d' = d_writes d ++ new →
      clean new →
      drained d (Stop (Panics (runtime_index_out_of_range i n)) d')
  | drained_eof (new : list write_event) (buf : list Byte.byte) (n : Z) (d' : Drain W) :
      d_writes d' = d_writes d ++ new ++ [(buf, (n, Some EOF))] →
      clean new →
      drained d (Stop (Return (int_add (sum_written (d_total d) new) n)) d')
  | drained_failure (new : list write_event) (buf : list Byte.byte) (n : Z)
      (e : io_error) (d' : Drain W) :
      e ≠ EOF →
      d_writes d' = d_writes d ++ new ++ [(buf, (n, Some e))] →
      clean new →
      drained d (Stop (Panics (write_panic e)) d').

(** The drain state in which [ConsumeCoverageData] enters its loops. *)
Definition drain_start {W} (w : W) (s : World) : Drain W :=
  {| d_counters := Counters (Cover s); d_sink := w; d_total := 0; d_writes := [] |}.

(** A loop with early exit over an explicit list of work items. *)
Fixpoint for_each {A St R} (body : A → St → flow St R) (l : list A) (s : St)
  : flow St R :=
  match l with
  | [] => Continue s
  | x :: l' =>
      match body x s with
      | Continue s' => for_each body l' s'
      | Stop r s' => Stop r s'
      end
  end.

Definition flow_state {St R} (fl : flow St R) : St :=
  match fl with Continue s => s | Stop _ s => s end.

(** A block of the catalog: the ordinal and name of its file and its
    ordinal within the file. *)
Record block_ref : Type := {
  fileNum : nat;
  fileName : string;
  blockNum : nat
}.

(** The blocks of the files [fs], the first of which has ordinal [i], in
    the order of the two nested loops. *)
Fixpoint blocks_from (size_of : string → nat) (i : nat) (fs : list string)
  : list block_ref :=
  match fs with
  | [] => []
  | file :: fs' =>
      ((λ j, {| fileNum := i; fileName := file; blockNum := j |})
         <$> seq 0 (size_of file))
      ++ blocks_from size_of (S i) fs'
  end.

(** Every cataloged block in catalog order. *)
Definition catalog_blocks (s : World) : list block_ref :=
  blocks_from (λ file, length (map_index (Blocks (Cover s)) file)) 0
              (files (globalData s)).


Definition counter_of (s : World) (b : block_ref) : Z :=
  LoadUint32 (Counters (Cover s)) (fileName b) (blockNum b).

Definition pc_of (b : block_ref) : Z :=
  calculatePC (Z.of_nat (fileNum b)) (Z.of_nat (blockNum b)).

(** [globalData.syntheticPCs[fileNum][blockNum]], when in range. *)
Definition pc_lookup (g : GlobalData) (b : block_ref) : option Z :=
  syntheticPCs g !! fileNum b ≫= (λ row, row !! blockNum b).

Definition block_key (b : block_ref) : string * nat := (fileName b, blockNum b).

(** The world before anything ran: zero-valued [globalData] and [once]. *)
Definition fresh (c : coverdata_Cover) : World :=
  {| Cover := c; globalData := {| files := []; syntheticPCs := [] |}; once := false |}.

(** The catalog has been built, once, from the registered blocks. *)
Definition initialized (s : World) : Prop :=
  once s = true
  ∧ ∃ rb, range_order (Blocks (Cover s)) rb
          ∧ globalData s = globalData (InitCoverageData rb (fresh (Cover s))).

(** The counters of every file are aligned 1:1 with its block list. *)
Definition aligned (s : World) : Prop :=
  length <$> Counters (Cover s) = length <$> Blocks (Cover s).

(** The body of the inner loop of [ConsumeCoverageData] at a block. *)
Definition consume_ref {W} `{!Writer W} (bo : ByteOrder) (g : GlobalData)
    (b : block_ref) (d : Drain W) : flow (Drain W) (outcome Z) :=
  consume_block bo g (fileNum b) (fileName b) (blockNum b) d.

(** ** Sample instrumentation data *)

Definition only_empty_file : World :=
  {| Cover := {| Counters := {[ "a.go" := [] ]}; Blocks := {[ "a.go" := [] ]} |};
     globalData := {| files := []; syntheticPCs := [] |};
     once := false |}.

Definition one_file : World :=
  {| Cover := {| Counters := {[ "a.go" := [1] ]};
                 Blocks := {[ "a.go" := [ {| Line0 := 1; Col0 := 1; Line1 := 2; Col1 := 1; Stmts := 1 |} ] ]} |};
     globalData := {| files := []; syntheticPCs := [] |};
     once := false |}.

Definition sample_block (line : Z) : coverdata_CoverBlock :=
  {| Line0 := line; Col0 := 1; Line1 := line + 1; Col1 := 2; Stmts := 1 |}.

(** Two instrumented files; "b.go" is registered first but sorts last. *)
Definition two_files_Cover : coverdata_Cover :=
  {| Counters := {[ "b.go" := [1; 0; 3]; "a.go" := [0; 2] ]};
     Blocks := {[ "b.go" := [sample_block 10; sample_block 20; sample_block 30];
                  "a.go" := [sample_block 5; sample_block 7] ]} |}.

Definition two_files : World :=
  {| Cover := two_files_Cover;
     globalData := {| files := []; syntheticPCs := [] |};
     once := false |}.

(** The same two files with no block hit since the last flush. *)
Definition two_files_idle : World :=
  {| Cover := {| Counters := {[ "b.go" := [0; 0; 0]; "a.go" := [0; 0] ]};
                 Blocks := Blocks two_files_Cover |};
     globalData := {| files := []; syntheticPCs := [] |};
     once := false |}.

(** The two files after the catalog has been built. *)
Definition two_files_ready : World :=
  once_Do_InitCoverageData ["b.go"; "a.go"] two_files.

(** ** The dump of the catalog *)

(** The line feed that ends the formats of [PrintAllPCs]. *)
Definition newline : string := String (Ascii.ascii_of_nat 10) "".

Definition hex_digit (d : Z) : Ascii.ascii :=
  default (Ascii.ascii_of_nat 48) (String.list_ascii_of_string "0123456789abcdef" !! Z.to_nat d).

(** The hexadecimal digits of [v], most significant first, in front of
    [acc]; sixteen rounds cover a [uint64]. *)
Fixpoint hex_digits (fuel : nat) (v : Z) (acc : string) : string :=
  match fuel with
  | O => acc
  | S k =>
      let acc' := String (hex_digit (v mod 16)) acc in
      if decide (v / 16 = 0) then acc' else hex_digits k (v / 16) acc'
  end.

(** [fmt.Sprintf("%#x", v)] for a [uint64]. *)
Definition format_hex (v : Z) : string := "0x" +:+ hex_digits 16 v "".

(** [fmt.Sprintf("%d", v)] for an unsigned integer. *)
Definition format_dec (v : Z) : string := pretty v.

(** The output of [fmt.Printf("%#x\n", pc)]. *)
Definition pc_line (pc : Z) : string := format_hex pc +:+ newline.

(** The output of [fmt.Printf("%s:%d,%d-%d,%d\n", file, block.Line0,
    block.Col0, block.Line1, block.Col1)]. *)
Definition position_line (file : string) (block : coverdata_CoverBlock) : string :=
  file +:+ ":" +:+ format_dec (Line0 block) +:+ "," +:+ format_dec (Col0 block)
       +:+ "-" +:+ format_dec (Line1 block) +:+ "," +:+ format_dec (Col1 block)
       +:+ newline.

(** [PrintAllPCs]; the result is what the calls of [fmt.Printf] put on the
    standard output, one entry per call. *)
Definition PrintAllPCs (s : World) : list string :=
  range_slice
    (λ fileNum file stdout,
       range_slice
         (λ blockNum block stdout,
            (stdout ++ [pc_line (calculatePC (Z.of_nat fileNum) (Z.of_nat blockNum))])
            ++ [position_line file block])
         0 (map_index (Blocks (Cover s)) file) stdout)
    0 (files (globalData s)) [].

(** ** Further notions for the statements *)

(** The conversion [BlockFromIndex] applies to a block it found. *)
Definition to_CoverBlock (block : coverdata_CoverBlock) : CoverBlock :=
  {| FirstLine := Line0 block; FirstCol := Col0 block;
     LastLine := Line1 block; LastCol := Col1 block |}.

(** [io.Writer]'s contract for a successful call: the whole buffer was
    taken. *)
Definition honours_contract (W : Type) `{!Writer W} : Prop :=
  ∀ (w w' : W) (p : list Byte.byte) (n : Z),
    Write w p = (w', (n, None)) → n = len p.

(** The blocks whose counter is nonzero, in catalog order. *)
Definition hit_blocks (s : World) : list block_ref :=
  filter (λ b, counter_of s b ≠ 0) (catalog_blocks s).

Definition byte_to_Z (b : Byte.byte) : Z := Z.of_N (Byte.to_N b).

(** [binary.ByteOrder.Uint64], the reader's side of [PutUint64]. *)
Definition Uint64 (o : ByteOrder) (p : list Byte.byte) : Z :=
  let little := match o with LittleEndian => p | BigEndian => reverse p end in
  foldr (λ b acc, byte_to_Z b + 256 * acc) 0 little.

(** The zero-valued [globalData] of a process that has not initialized. *)
Definition globalData_zero : GlobalData := {| files := []; syntheticPCs := [] |}.

(** The counters [c'] arise from [c] by storing zeroes only. *)
Definition only_cleared (c c' : gmap string (list Z)) : Prop :=
  ∀ file index,
    LoadUint32 c' file index = 0
    ∨ LoadUint32 c' file index = LoadUint32 c file index.

(** A log entry that stems from the catalog and from the writer: its buffer
    encodes an entry of [syntheticPCs], its answer is an answer of [Write]
    to that buffer. *)
Definition genuine_event (W : Type) `{!Writer W} (bo : ByteOrder) (g : GlobalData)
    (ev : write_event) : Prop :=
  (∃ pc, pc ∈ mjoin (syntheticPCs g) ∧ ev.1 = PutUint64 bo pc)
  ∧ ∃ w0 w1 : W, Write w0 ev.1 = (w1, ev.2).

(** The block record the loops of [PrintAllPCs] see at a catalog position. *)
Definition block_at (s : World) (b : block_ref) : coverdata_CoverBlock :=
  default {| Line0 := 0; Col0 := 0; Line1 := 0; Col1 := 0; Stmts := 0 |}
          (map_index (Blocks (Cover s)) (fileName b) !! blockNum b).

(** The two lines [PrintAllPCs] prints for a block. *)
Definition block_lines (s : World) (b : block_ref) : list string :=
  [pc_line (pc_of b); position_line (fileName b) (block_at s b)].

(** * Properties *)

(** ** Bounds checks of the lookups *)

Lemma slice_index_negative {A} (l : list A) (i : Z) :
  i < 0 → slice_index l i = Panics (runtime_index_out_of_range i (len l)).
Proof. intros Hi. unfold slice_index. case_decide; [lia | done]. Qed.

Lemma slice_index_at_len {A} (l : list A) :
  slice_index l (len l) = Panics (runtime_index_out_of_range (len l) (len l)).
Proof.
  unfold slice_index, len. case_decide; [|lia].
  rewrite Nat2Z.id, lookup_ge_None_2; [done | lia].
Qed.

Lemma slice_index_in_range {A} (l : list A) (n : nat) (x : A) :
  l !! n = Some x → slice_index l (Z.of_nat n) = Return x.
Proof.
  intros Hx. unfold slice_index. case_decide; [|lia].
  by rewrite Nat2Z.id, Hx.
Qed.

Lemma slice_index_Panics {A} (l : list A) (i : Z) (p : panic) :
  slice_index l i = Panics p → p = runtime_index_out_of_range i (len l).
Proof.
  unfold slice_index. intros Hp.
  case_decide; [destruct (l !! Z.to_nat i)|]; by simplify_eq.
Qed.

(** C2 (the code departs from the claim): at an index equal to the length
    neither lookup returns its out-of-range error; the check [i > total]
    lets the index through and the slice access panics. *)
Theorem C2_index_equal_length_panics (s : World) (file : string) :
  FileFromIndex s (len (files (globalData s)))
    = Panics (runtime_index_out_of_range (len (files (globalData s)))
                                         (len (files (globalData s))))
  ∧ BlockFromIndex s file (len (map_index (Blocks (Cover s)) file))
    = Panics (runtime_index_out_of_range
                (len (map_index (Blocks (Cover s)) file))
                (len (map_index (Blocks (Cover s)) file))).
Proof.
  split.
  - unfold FileFromIndex. case_decide; [lia|].
    by rewrite slice_index_at_len.
  - unfold BlockFromIndex. case_decide; [lia|].
    by rewrite slice_index_at_len.
Qed.

(** The error branch of [FileFromIndex] is taken exactly for [i > len]. *)
Lemma FileFromIndex_error_iff (s : World) (i : Z) :
  (∃ v e, FileFromIndex s i = Return (v, Some e)) ↔ i > len (files (globalData s)).
Proof.
  unfold FileFromIndex. case_decide as Hi.
  - split; [done | eauto].
  - split; [|done]. intros (v & e & Hr).
    destruct (slice_index _ _); simplify_eq.
Qed.

Lemma BlockFromIndex_error_iff (s : World) (file : string) (i : Z) :
  (∃ v e, BlockFromIndex s file i = Return (v, Some e))
  ↔ i > len (map_index (Blocks (Cover s)) file).
Proof.
  unfold BlockFromIndex. case_decide as Hi.
  - split; [done | eauto].
  - split; [|done]. intros (v & e & Hr).
    destruct (slice_index _ _); simplify_eq.
Qed.

(** C10: for a negative index neither lookup returns its out-of-range
    error: the check [i > total] passes, the slice access is attempted and
    panics in the runtime.  The error branch is taken for the indices above
    the length and for no others. *)
Theorem C10_negative_index_not_rejected (s : World) (file : string) (i : Z) :
  i < 0 →
  FileFromIndex s i
    = Panics (runtime_index_out_of_range i (len (files (globalData s))))
  ∧ BlockFromIndex s file i
    = Panics (runtime_index_out_of_range i (len (map_index (Blocks (Cover s)) file)))
  ∧ (∀ j, (∃ v e, FileFromIndex s j = Return (v, Some e))
          ↔ j > len (files (globalData s)))
  ∧ (∀ j, (∃ v e, BlockFromIndex s file j = Return (v, Some e))
          ↔ j > len (map_index (Blocks (Cover s)) file)).
Proof.
  intros Hi. split_and!.
  - unfold FileFromIndex. case_decide; [unfold len in *; lia|].
    by rewrite slice_index_negative.
  - unfold BlockFromIndex. case_decide; [unfold len in *; lia|].
    by rewrite slice_index_negative.
  - intros j. apply FileFromIndex_error_iff.
  - intros j. apply BlockFromIndex_error_iff.
Qed.

(** ** The packing of synthetic PCs *)

Lemma calculatePC_packed (fileNum blockNum : Z) :
  0 ≤ fileNum < 2 ^ 48 → 0 ≤ blockNum < 2 ^ 16 →
  calculatePC fileNum blockNum = fileNum * 2 ^ 16 + blockNum.
Proof.
  intros Hf Hb.
  unfold calculatePC, uint64_add, uint64_shl, uint64.
  rewrite Z.shiftl_mul_pow2 by lia.
  rewrite (Z.mod_small fileNum) by lia.
  rewrite (Z.mod_small blockNum) by lia.
  rewrite (Z.mod_small (fileNum * 2 ^ 16)) by lia.
  rewrite Z.mod_small; lia.
Qed.

Lemma calculatePC_injective (f1 b1 f2 b2 : Z) :
  0 ≤ f1 < 2 ^ 48 → 0 ≤ b1 < 2 ^ 16 →
  0 ≤ f2 < 2 ^ 48 → 0 ≤ b2 < 2 ^ 16 →
  calculatePC f1 b1 = calculatePC f2 b2 → f1 = f2 ∧ b1 = b2.
Proof.
  intros Hf1 Hb1 Hf2 Hb2.
  rewrite !calculatePC_packed by done.
  change (2 ^ 16) with 65536 in *. lia.
Qed.

(** ** What the operations leave alone *)

Lemma once_Do_InitCoverageData_done (rb : list string) (s : World) :
  once s = true → once_Do_InitCoverageData rb s = s.
Proof. intros Ho. unfold once_Do_InitCoverageData. by rewrite Ho. Qed.

Lemma once_Do_InitCoverageData_once (rb : list string) (s : World) :
  once (once_Do_InitCoverageData rb s) = true.
Proof. unfold once_Do_InitCoverageData. by destruct (once s) eqn:Ho. Qed.

Lemma ConsumeCoverageData_world {W} `{!Writer W} (bo : ByteOrder)
    (rb : list string) (w : W) (s : World) :
  ∃ c, world (ConsumeCoverageData bo rb w s)
       = set_Counters c (once_Do_InitCoverageData rb s).
Proof.
  unfold ConsumeCoverageData.
  destruct (consume_files _ _ _) as [d|r d]; eauto.
Qed.

Lemma ConsumeCoverageData_globalData {W} `{!Writer W} (bo : ByteOrder)
    (rb : list string) (w : W) (s : World) :
  once s = true →
  globalData (world (ConsumeCoverageData bo rb w s)) = globalData s.
Proof.
  intros Ho. destruct (ConsumeCoverageData_world bo rb w s) as [c ->].
  by rewrite once_Do_InitCoverageData_done.
Qed.

(** C3 (amended): on file ordinals below 2^48 and block ordinals below
    2^16 distinct pairs get distinct synthetic PCs, and once the catalog
    has been built through the gate of [once.Do] (the gate is closed)
    neither a flush nor a reset changes it. *)
Theorem C3_calculatePC_injective_within_16_bits {W} `{!Writer W}
    (bo : ByteOrder) (rb rc : list string) (w : W) (s : World)
    (f1 b1 f2 b2 : Z) :
  once s = true →
  0 ≤ f1 < 2 ^ 48 → 0 ≤ b1 < 2 ^ 16 →
  0 ≤ f2 < 2 ^ 48 → 0 ≤ b2 < 2 ^ 16 →
  (f1, b1) ≠ (f2, b2) →
  calculatePC f1 b1 ≠ calculatePC f2 b2
  ∧ globalData (world (ConsumeCoverageData bo rb w s)) = globalData s
  ∧ globalData (ClearCoverageData rc s) = globalData s.
Proof.
  intros Ho Hf1 Hb1 Hf2 Hb2 Hne. split_and!.
  - intros Heq. apply Hne.
    by destruct (calculatePC_injective f1 b1 f2 b2) as [-> ->].
  - by apply ConsumeCoverageData_globalData.
  - done.
Qed.

(** C3 as stated fails: block ordinal 2^16 of file 0 and block 0 of file 1
    receive the same synthetic PC.  Nor is a built catalog stable while the
    gate of [once.Do] is open: after a direct [InitCoverageData] the first
    flush builds again, and block 0 of "b.go", whose PC was 65536 in row 1,
    is then reported from row 2, whose first PC is 0. *)
Lemma C3_collision_at_block_65536 :
  0 ≤ 0 ∧ 0 ≤ 65536 ∧ 0 ≤ 1 ∧ ((0, 65536) : Z * Z) ≠ (1, 0)
  ∧ calculatePC 0 65536 = calculatePC 1 0
  ∧ globalData (InitCoverageData ["a.go"; "b.go"] two_files)
    = {| files := ["a.go"; "b.go"];
         syntheticPCs := [[0; 1]; [65536; 65537; 65538]] |}
  ∧ globalData (world (ConsumeCoverageData LittleEndian ["a.go"; "b.go"]
                         {| area := []; room := 64 |}
                         (InitCoverageData ["a.go"; "b.go"] two_files)))
    = {| files := ["a.go"; "a.go"; "b.go"; "b.go"];
         syntheticPCs := [[0; 1]; [65536; 65537; 65538]; [0; 1]; [65536; 65537];
                          [131072; 131073; 131074]; [196608; 196609; 196610]] |}.
Proof.
  split_and!; [lia | lia | lia | congruence | reflexivity | |];
    vm_compute; reflexivity.
Qed.

(** ** Availability *)

(** C7 (amended): [KcovAvailable] holds exactly when some file is
    registered in [coverdata.Cover.Blocks], whatever its block list. *)
Theorem C7_KcovAvailable_iff_some_file (s : World) :
  KcovAvailable s = true ↔ ∃ file blocks, Blocks (Cover s) !! file = Some blocks.
Proof.
  unfold KcovAvailable. rewrite bool_decide_eq_true. split.
  - intros Hsz. apply map_choose, map_size_non_empty_iff. lia.
  - intros (file & blocks & Hf).
    assert (size (Blocks (Cover s)) ≠ 0%nat); [|lia].
    apply map_size_non_empty_iff. intros Hm. by rewrite Hm in Hf.
Qed.


(** C7 as stated fails: with one registered file that has no block
    [KcovAvailable] still answers true. *)
Lemma C7_available_without_blocks :
  map_to_list (Blocks (Cover only_empty_file)) = [("a.go", [])]
  ∧ (∀ file blocks,
       Blocks (Cover only_empty_file) !! file = Some blocks → blocks = [])
  ∧ KcovAvailable only_empty_file = true.
Proof.
  split_and!; [reflexivity | | reflexivity].
  intros file blocks Hf. simpl in Hf.
  apply lookup_singleton_Some in Hf as [_ <-]. done.
Qed.

(** ** Initialization *)

Lemma range_slice_append {A} (l : list A) (i : nat) (acc : list A) :
  range_slice (λ _ x fs, fs ++ [x]) i l acc = acc ++ l.
Proof.
  revert i acc. induction l as [|x l IH]; intros i acc; simpl.
  - by rewrite app_nil_r.
  - by rewrite IH, <-app_assoc.
Qed.

Lemma InitCoverageData_files (rb : list string) (s : World) :
  files (globalData (InitCoverageData rb s))
  = sort_Strings (files (globalData s) ++ rb).
Proof. unfold InitCoverageData. simpl. by rewrite range_slice_append. Qed.

Lemma sort_Strings_Sorted (l : list string) : Sorted String.le (sort_Strings l).
Proof. apply (Sorted_merge_sort String.le). Qed.

Lemma sort_Strings_Permutation (l : list string) : sort_Strings l ≡ₚ l.
Proof. apply (merge_sort_Permutation String.le). Qed.

(** Whatever algorithm [sort.Strings] runs, its result is this one. *)
Lemma sort_Strings_unique (l l' : list string) :
  Sorted String.le l' → l' ≡ₚ l → l' = sort_Strings l.
Proof.
  intros Hs Hp. apply (Sorted_unique String.le); [done | apply sort_Strings_Sorted |].
  by rewrite sort_Strings_Permutation.
Qed.

Lemma sort_Strings_proper (l1 l2 : list string) :
  l1 ≡ₚ l2 → sort_Strings l1 = sort_Strings l2.
Proof.
  intros Hp. apply sort_Strings_unique; [apply sort_Strings_Sorted |].
  by rewrite sort_Strings_Permutation.
Qed.

(** C6 (amended): through the gate [once.Do] initialization is idempotent;
    a second direct call of [InitCoverageData] appends the enumerated
    files to the catalog once more. *)
Theorem C6_once_gate_idempotent (rb1 rb2 : list string) (s : World) :
  once_Do_InitCoverageData rb2 (once_Do_InitCoverageData rb1 s)
    = once_Do_InitCoverageData rb1 s
  ∧ length (files (globalData (InitCoverageData rb2 (InitCoverageData rb1 s))))
    = (length (files (globalData (InitCoverageData rb1 s))) + length rb2)%nat.
Proof.
  split.
  - apply once_Do_InitCoverageData_done, once_Do_InitCoverageData_once.
  - rewrite (InitCoverageData_files rb2).
    by rewrite sort_Strings_Permutation, length_app.
Qed.


(** C6 as stated fails: a second run of [InitCoverageData] lists the file
    twice and adds two more rows of synthetic PCs. *)
Lemma C6_second_InitCoverageData_appends :
  globalData (InitCoverageData ["a.go"] one_file)
    = {| files := ["a.go"]; syntheticPCs := [[0]] |}
  ∧ globalData (InitCoverageData ["a.go"] (InitCoverageData ["a.go"] one_file))
    = {| files := ["a.go"; "a.go"]; syntheticPCs := [[0]; [0]; [65536]] |}
  ∧ globalData (InitCoverageData ["a.go"] (InitCoverageData ["a.go"] one_file))
    ≠ globalData (InitCoverageData ["a.go"] one_file).
Proof.
  assert (H1 : globalData (InitCoverageData ["a.go"] one_file)
               = {| files := ["a.go"]; syntheticPCs := [[0]] |})
    by (vm_compute; reflexivity).
  assert (H2 : globalData (InitCoverageData ["a.go"] (InitCoverageData ["a.go"] one_file))
               = {| files := ["a.go"; "a.go"]; syntheticPCs := [[0]; [0]; [65536]] |})
    by (vm_compute; reflexivity).
  split_and!; [exact H1 | exact H2 |].
  rewrite H1, H2. intros Heq. discriminate Heq.
Qed.

(** C9: the catalog does not depend on the order in which the runtime
    enumerates [coverdata.Cover.Blocks]: two builds over the same blocks
    yield the same files and the same synthetic PCs. *)
Theorem C9_InitCoverageData_deterministic (s1 s2 : World) (rb1 rb2 : list string) :
  Blocks (Cover s1) = Blocks (Cover s2) →
  globalData s1 = globalData s2 →
  range_order (Blocks (Cover s1)) rb1 →
  range_order (Blocks (Cover s2)) rb2 →
  globalData (InitCoverageData rb1 s1) = globalData (InitCoverageData rb2 s2).
Proof.
  unfold range_order. intros HB Hg Hr1 Hr2.
  assert (Hfiles : sort_Strings (files (globalData s1) ++ rb1)
                   = sort_Strings (files (globalData s2) ++ rb2)).
  { apply sort_Strings_proper. by rewrite Hg, Hr1, Hr2, HB. }
  unfold InitCoverageData. simpl.
  rewrite !range_slice_append, Hfiles, HB, Hg. done.
Qed.

(** ** Resetting the counters *)


Lemma zero_indices_length (l : list nat) (counters : list Z) :
  length (zero_indices l counters) = length counters.
Proof.
  revert counters. induction l as [|i l IH]; intros cs; simpl; [done|].
  unfold zero_indices in *. simpl. by rewrite IH, length_insert.
Qed.

Lemma zero_indices_lookup (n : nat) (counters : list Z) (i : nat) :
  zero_indices (seq 0 n) counters !! i
  = if decide (i < n)%nat then (λ _, 0) <$> counters !! i else counters !! i.
Proof.
  induction n as [|n IH].
  - by case_decide; [lia|].
  - rewrite seq_S. unfold zero_indices. rewrite foldl_app. simpl.
    fold (zero_indices (seq 0 n) counters).
    rewrite list_lookup_insert, zero_indices_length, IH.
    destruct (decide (n = i ∧ (n < length counters)%nat)) as [[-> Hlt]|Hn].
    + rewrite decide_True by lia.
      by apply lookup_lt_is_Some in Hlt as [x ->].
    + destruct (decide (i < n)%nat) as [Hi|Hi].
      * by rewrite decide_True by lia.
      * destruct (decide (i < S n)%nat) as [Hi'|Hi']; [|done].
        assert (n = i) as -> by lia.
        rewrite lookup_ge_None_2; [done | lia].
Qed.

Lemma zero_indices_all (counters : list Z) :
  zero_indices (seq 0 (length counters)) counters = replicate (length counters) 0.
Proof.
  apply list_eq. intros i. rewrite zero_indices_lookup.
  case_decide as Hi.
  - rewrite lookup_replicate_2 by done.
    apply lookup_lt_is_Some in Hi as [x ->]. done.
  - rewrite lookup_ge_None_2 by lia. symmetry. apply lookup_replicate_None. lia.
Qed.

Lemma StoreUint32_lookup (file : string) (index : nat) (v : Z)
    (c : gmap string (list Z)) (file' : string) :
  StoreUint32 file index v c !! file'
  = if decide (file = file') then (λ cs, <[index := v]> cs) <$> c !! file'
    else c !! file'.
Proof.
  unfold StoreUint32. rewrite lookup_alter. by case_decide; simplify_eq.
Qed.

Lemma zero_file_lookup (file : string) (l : list nat)
    (c : gmap string (list Z)) (file' : string) :
  foldl (λ c index, StoreUint32 file index 0 c) c l !! file'
  = if decide (file = file') then zero_indices l <$> c !! file' else c !! file'.
Proof.
  revert c. induction l as [|i l IH]; intros c; simpl.
  - case_decide; [|done]. by destruct (c !! file').
  - rewrite IH, StoreUint32_lookup. case_decide; [|done].
    by destruct (c !! file').
Qed.


Lemma clear_file_lookup (file : string) (c : gmap string (list Z)) (file' : string) :
  clear_file file c !! file'
  = if decide (file = file') then (λ cs, replicate (length cs) 0) <$> c !! file'
    else c !! file'.
Proof.
  unfold clear_file, for_index. rewrite zero_file_lookup.
  case_decide as Hf; [|done]. subst file'. unfold map_index.
  destruct (c !! file) as [cs|]; simpl; [|done].
  by rewrite zero_indices_all.
Qed.

Lemma clear_files_lookup (keys : list string) (i : nat)
    (c : gmap string (list Z)) (file : string) :
  range_slice (λ _ file c, clear_file file c) i keys c !! file
  = if decide (file ∈ keys) then (λ cs, replicate (length cs) 0) <$> c !! file
    else c !! file.
Proof.
  revert i c. induction keys as [|k keys IH]; intros i c.
  - rewrite decide_False by set_solver. done.
  - cbn [range_slice]. rewrite IH, !clear_file_lookup.
    destruct (decide (k = file)) as [->|Hk].
    + rewrite (decide_True (P := file ∈ file :: keys)) by set_solver.
      destruct (c !! file) as [cs|]; simpl; [|by destruct (decide _)].
      destruct (decide (file ∈ keys)); simpl; [|done].
      by rewrite length_replicate.
    + destruct (decide (file ∈ keys)) as [Hin|Hin].
      * by rewrite decide_True by set_solver.
      * rewrite decide_False; [done|]. by apply not_elem_of_cons.
Qed.

(** C8: [ClearCoverageData] stores zero into every counter of every file
    and changes nothing else: the blocks, the catalog and the
    initialization gate are as before; it has no writer to write to. *)
Theorem C8_ClearCoverageData_zeroes_counters_only (rc : list string) (s : World) :
  range_order (Counters (Cover s)) rc →
  Counters (Cover (ClearCoverageData rc s))
    = (λ counters, replicate (length counters) 0) <$> Counters (Cover s)
  ∧ Blocks (Cover (ClearCoverageData rc s)) = Blocks (Cover s)
  ∧ globalData (ClearCoverageData rc s) = globalData s
  ∧ once (ClearCoverageData rc s) = once s.
Proof.
  intros Hrc. split_and!; try done.
  unfold ClearCoverageData. simpl. apply map_eq. intros file.
  change (range_slice (λ _ file c, clear_file file c) 0 rc (Counters (Cover s)) !! file
          = ((λ counters, replicate (length counters) 0) <$> Counters (Cover s)) !! file).
  rewrite clear_files_lookup, lookup_fmap.
  case_decide as Hin; [done|].
  destruct (Counters (Cover s) !! file) as [cs|] eqn:Hf; [|done].
  exfalso. apply Hin. rewrite Hrc.
  apply list_elem_of_fmap. exists (file, cs). split; [done|].
  by apply elem_of_map_to_list.
Qed.

Lemma C8_witness :
  range_order (Counters (Cover two_files)) ["b.go"; "a.go"]
  ∧ Counters (Cover (ClearCoverageData ["b.go"; "a.go"] two_files))
    = {[ "b.go" := [0; 0; 0]; "a.go" := [0; 0] ]}.
Proof.
  assert (Hr : range_order (Counters (Cover two_files)) ["b.go"; "a.go"]).
  { unfold range_order. vm_compute. apply perm_swap. }
  split; [exact Hr|].
  destruct (C8_ClearCoverageData_zeroes_counters_only ["b.go"; "a.go"] two_files Hr)
    as (-> & _).
  vm_compute. reflexivity.
Defined.

(** ** The log of a flush *)

Lemma sum_written_app (t : Z) (l1 l2 : list write_event) :
  sum_written t (l1 ++ l2) = sum_written (sum_written t l1) l2.
Proof. apply foldl_app. Qed.

Lemma clean_app (l1 l2 : list write_event) : clean l1 → clean l2 → clean (l1 ++ l2).
Proof. unfold clean. intros. by apply Forall_app. Qed.

Section drained.
Context {W : Type} `{!Writer W}.

Lemma drained_skip (d : Drain W) : drained d (Continue d).
Proof. apply (drained_through d []); [by rewrite app_nil_r | constructor | done]. Qed.

Lemma drained_then (d d1 : Drain W) (fl : flow (Drain W) (outcome Z)) :
  drained d (Continue d1) → drained d1 fl → drained d fl.
Proof.
  intros H1 H2. inversion H1 as [new1 ? Hw1 Hc1 Ht1| | |]; subst.
  inversion H2 as [new2 ? Hw2 Hc2 Ht2|new2 ? ? ? Hw2 Hc2
                  |new2 ? ? ? Hw2 Hc2|new2 ? ? ? ? Hne Hw2 Hc2]; subst.
  - apply (drained_through d (new1 ++ new2)).
    + by rewrite Hw2, Hw1, app_assoc.
    + by apply clean_app.
    + by rewrite Ht2, Ht1, sum_written_app.
  - apply (drained_index d (new1 ++ new2)).
    + by rewrite Hw2, Hw1, app_assoc.
    + by apply clean_app.
  - rewrite Ht1, <-sum_written_app.
    apply (drained_eof d (new1 ++ new2) buf).
    + by rewrite Hw2, Hw1, !app_assoc.
    + by apply clean_app.
  - apply (drained_failure d (new1 ++ new2) buf n); [done | | by apply clean_app].
    by rewrite Hw2, Hw1, !app_assoc.
Qed.

Lemma drained_consume_block (bo : ByteOrder) (g : GlobalData)
    (fileIndex : nat) (file : string) (index : nat) (d : Drain W) :
  drained d (consume_block bo g fileIndex file index d).
Proof.
  unfold consume_block. case_decide; [apply drained_skip|].
  destruct (slice_index (syntheticPCs g) _) as [row|p] eqn:Hrow.
  2: { apply slice_index_Panics in Hrow as ->.
       eapply (drained_index d []); [by rewrite app_nil_r | constructor]. }
  destruct (slice_index row _) as [pc|p] eqn:Hpc.
  2: { apply slice_index_Panics in Hpc as ->.
       eapply (drained_index d []); [by rewrite app_nil_r | constructor]. }
  destruct (Write (d_sink d) (PutUint64 bo pc)) as [w [n [e|]]].
  - case_decide as He.
    + subst e. eapply (drained_eof d []); [done | constructor].
    + eapply (drained_failure d []); [done | done | constructor].
  - eapply (drained_through d [_]); simpl; [done | | done].
    by repeat constructor.
Qed.

Lemma drained_for_index_until (body : nat → Drain W → flow (Drain W) (outcome Z))
    (remaining index : nat) (d : Drain W) :
  (∀ i d, drained d (body i d)) →
  drained d (for_index_until body index remaining d).
Proof.
  intros Hbody. revert index d.
  induction remaining as [|k IH]; intros index d; simpl.
  - apply drained_skip.
  - destruct (body index d) as [d1|r d1] eqn:Hb.
    + apply (drained_then d d1); [|apply IH]. rewrite <-Hb. apply Hbody.
    + rewrite <-Hb. apply Hbody.
Qed.

Lemma drained_range_until {A} (body : nat → A → Drain W → flow (Drain W) (outcome Z))
    (l : list A) (i : nat) (d : Drain W) :
  (∀ i x d, drained d (body i x d)) →
  drained d (range_until body i l d).
Proof.
  intros Hbody. revert i d.
  induction l as [|x l IH]; intros i d; simpl.
  - apply drained_skip.
  - destruct (body i x d) as [d1|r d1] eqn:Hb.
    + apply (drained_then d d1); [|apply IH]. rewrite <-Hb. apply Hbody.
    + rewrite <-Hb. apply Hbody.
Qed.

Lemma drained_consume_files (bo : ByteOrder) (g : GlobalData) (d : Drain W) :
  drained d (consume_files bo g d).
Proof.
  apply drained_range_until. intros i file d1.
  apply drained_for_index_until. intros. apply drained_consume_block.
Qed.
End drained.

Lemma failed_write_is_last (pre post new : list write_event) (ev x : write_event) :
  clean new → ev.2.2 ≠ None →
  pre ++ ev :: post = new ++ [x] →
  pre = new ∧ ev = x ∧ post = [].
Proof.
  intros Hc Hev. revert new Hc.
  induction pre as [|a pre IH]; intros [|y new] Hc Heq; simplify_eq/=.
  - done.
  - by apply Forall_cons_1 in Hc as [? _].
  - by destruct pre.
  - apply Forall_cons_1 in Hc as [_ Hc].
    by destruct (IH new Hc) as (-> & -> & ->).
Qed.

Lemma failed_write_not_clean (pre post : list write_event) (ev : write_event) :
  ev.2.2 ≠ None → ¬ clean (pre ++ ev :: post).
Proof.
  intros Hev Hc. apply Forall_app in Hc as [_ Hc].
  by apply Forall_cons_1 in Hc as [? _].
Qed.

(** C5: a call of [w.Write] that answers with an error is the last thing
    the scan does.  On [io.EOF] the flush returns [total + n], the bytes
    counted so far, as its ordinary result; on any other error it panics. *)
Theorem C5_failed_write_ends_the_flush {W} `{!Writer W} (bo : ByteOrder)
    (rb : list string) (w : W) (s : World)
    (pre post : list write_event) (buf : list Byte.byte) (n : Z) (e : io_error) :
  writes (ConsumeCoverageData bo rb w s) = pre ++ (buf, (n, Some e)) :: post →
  post = [] ∧ clean pre
  ∧ result (ConsumeCoverageData bo rb w s)
    = match e with
      | EOF => Return (int_add (sum_written 0 pre) n)
      | io_failure _ => Panics (write_panic e)
      end.
Proof.
  unfold ConsumeCoverageData.
  pose proof (drained_consume_files bo
                (globalData (once_Do_InitCoverageData rb s))
                (drain_start w (once_Do_InitCoverageData rb s))) as Hd.
  unfold drain_start in Hd.
  destruct (consume_files _ _ _) as [d|r d]; simpl; intros Hlog;
    inversion Hd as [new ? Hw Hc Ht|new ? ? ? Hw Hc
                    |new buf' n' ? Hw Hc|new buf' n' e' ? Hne Hw Hc];
    subst; simpl in Hw; rewrite Hlog in Hw.
  - exfalso. apply (failed_write_not_clean pre post (buf, (n, Some e))); [done|].
    by subst new.
  - exfalso. apply (failed_write_not_clean pre post (buf, (n, Some e))); [done|].
    by subst new.
  - apply failed_write_is_last in Hw as (-> & Hev & ->); [|done..].
    by injection Hev as <- <- ->.
  - apply failed_write_is_last in Hw as (-> & Hev & ->); [|done..].
    injection Hev as <- <- <-. by destruct e.
Qed.

Lemma C5_witness :
  writes (ConsumeCoverageData LittleEndian ["b.go"; "a.go"]
            {| area := []; room := 12 |} two_files)
    = [(PutUint64 LittleEndian 1, (8, None))]
      ++ (PutUint64 LittleEndian 65536, (4, Some EOF)) :: []
  ∧ result (ConsumeCoverageData LittleEndian ["b.go"; "a.go"]
              {| area := []; room := 12 |} two_files)
    = Return 12.
Proof.
  assert (Hlog : writes (ConsumeCoverageData LittleEndian ["b.go"; "a.go"]
                           {| area := []; room := 12 |} two_files)
                 = [(PutUint64 LittleEndian 1, (8, None))]
                   ++ (PutUint64 LittleEndian 65536, (4, Some EOF)) :: []).
  { vm_compute. reflexivity. }
  split; [exact Hlog|].
  destruct (C5_failed_write_ends_the_flush _ _ _ _ _ _ _ _ _ Hlog) as (_ & _ & ->).
  vm_compute. reflexivity.
Defined.

(** C4: when the loops of [ConsumeCoverageData] run to their end and
    [total] is still zero, the call panics instead of returning 0. *)
Theorem C4_zero_total_after_full_scan_panics {W} `{!Writer W} (bo : ByteOrder)
    (rb : list string) (w : W) (s : World) (d : Drain W) :
  consume_files bo (globalData (once_Do_InitCoverageData rb s))
    (drain_start w (once_Do_InitCoverageData rb s)) = Continue d →
  d_total d = 0 →
  result (ConsumeCoverageData bo rb w s) = Panics no_coverage_panic.
Proof.
  unfold ConsumeCoverageData, drain_start. intros -> Ht. simpl.
  by rewrite decide_True.
Qed.

Lemma C4_witness :
  result (ConsumeCoverageData LittleEndian ["a.go"; "b.go"]
            {| area := []; room := 64 |} two_files_idle)
  = Panics no_coverage_panic.
Proof.
  apply (C4_zero_total_after_full_scan_panics _ _ _ _
           (drain_start {| area := []; room := 64 |} two_files_idle)).
  - vm_compute. reflexivity.
  - reflexivity.
Defined.

(** ** The scan as one pass over the catalog *)

Lemma for_each_app {A St R} (body : A → St → flow St R) (l1 l2 : list A) (s : St) :
  for_each body (l1 ++ l2) s
  = match for_each body l1 s with
    | Continue s' => for_each body l2 s'
    | Stop r s' => Stop r s'
    end.
Proof.
  revert s. induction l1 as [|x l1 IH]; intros s; simpl; [done|].
  by destruct (body x s).
Qed.

Lemma for_each_fmap {A B St R} (f : A → B) (body : B → St → flow St R)
    (l : list A) (s : St) :
  for_each body (f <$> l) s = for_each (λ x, body (f x)) l s.
Proof.
  revert s. induction l as [|x l IH]; intros s; simpl; [done|].
  by destruct (body (f x) s).
Qed.

Lemma for_index_until_for_each {St R} (body : nat → St → flow St R)
    (index remaining : nat) (s : St) :
  for_index_until body index remaining s = for_each body (seq index remaining) s.
Proof.
  revert index s. induction remaining as [|k IH]; intros index s; simpl; [done|].
  by destruct (body index s).
Qed.

Lemma blocks_from_ext (sz1 sz2 : string → nat) (i : nat) (fs : list string) :
  (∀ file, sz1 file = sz2 file) → blocks_from sz1 i fs = blocks_from sz2 i fs.
Proof.
  intros Hsz. revert i. induction fs as [|file fs IH]; intros i; simpl; [done|].
  by rewrite Hsz, IH.
Qed.

Lemma StoreUint32_shape (file : string) (index : nat) (v : Z)
    (c : gmap string (list Z)) (file' : string) :
  length (map_index (StoreUint32 file index v c) file') = length (map_index c file').
Proof.
  unfold map_index. rewrite StoreUint32_lookup.
  case_decide; [|done]. destruct (c !! file'); simpl; [|done].
  apply length_insert.
Qed.

Lemma LoadUint32_StoreUint32_zero (file : string) (index : nat)
    (c : gmap string (list Z)) (file' : string) (index' : nat) :
  LoadUint32 (StoreUint32 file index 0 c) file' index'
  = if decide ((file', index') = (file, index)) then 0 else LoadUint32 c file' index'.
Proof.
  unfold LoadUint32, map_index. rewrite StoreUint32_lookup.
  destruct (decide (file = file')) as [<-|Hf].
  - destruct (c !! file) as [cs|]; simpl.
    + rewrite list_lookup_insert.
      destruct (decide (index = index' ∧ (index < length cs)%nat)) as [[<- Hlt]|Hn].
      * by rewrite decide_True.
      * case_decide as Hk; [|done]. simplify_eq.
        rewrite lookup_ge_None_2; [done | lia].
    + by case_decide.
  - rewrite decide_False; [done | congruence].
Qed.

Section scan.
Context {W : Type} `{!Writer W}.
Variable bo : ByteOrder.
Variable g : GlobalData.

Lemma consume_block_shape (fileIndex : nat) (file : string) (index : nat)
    (d : Drain W) (file' : string) :
  length (map_index (d_counters (flow_state (consume_block bo g fileIndex file index d))) file')
  = length (map_index (d_counters d) file').
Proof.
  unfold consume_block. case_decide; [done|].
  destruct (slice_index (syntheticPCs g) _) as [row|p]; simpl;
    [|apply StoreUint32_shape].
  destruct (slice_index row _) as [pc|p]; simpl; [|apply StoreUint32_shape].
  destruct (Write _ _) as [w [n [e|]]]; [case_decide|]; apply StoreUint32_shape.
Qed.

Lemma for_each_shape (bs : list block_ref) (d : Drain W) (file' : string) :
  length (map_index (d_counters (flow_state (for_each (consume_ref bo g) bs d))) file')
  = length (map_index (d_counters d) file').
Proof.
  revert d. induction bs as [|b bs IH]; intros d; simpl; [done|].
  pose proof (consume_block_shape (fileNum b) (fileName b) (blockNum b) d file') as Hb.
  unfold consume_ref at 1.
  destruct (consume_block _ _ _ _ _ d) as [d1|r d1]; simpl in *; [|done].
  by rewrite IH.
Qed.

Lemma consume_file_row (fileIndex : nat) (file : string) (d : Drain W) :
  consume_file bo g fileIndex file d
  = for_each (consume_ref bo g)
      ((λ j, {| fileNum := fileIndex; fileName := file; blockNum := j |})
         <$> seq 0 (length (map_index (d_counters d) file))) d.
Proof.
  unfold consume_file. by rewrite for_index_until_for_each, for_each_fmap.
Qed.

(** The nested loops of [ConsumeCoverageData] visit the blocks of the
    files in the order of [blocks_from]. *)
Lemma consume_files_flat (fs : list string) (i : nat) (d : Drain W) :
  range_until (consume_file bo g) i fs d
  = for_each (consume_ref bo g)
      (blocks_from (λ file, length (map_index (d_counters d) file)) i fs) d.
Proof.
  revert i d. induction fs as [|file fs IH]; intros i d; simpl; [done|].
  rewrite for_each_app, consume_file_row.
  pose proof (for_each_shape
    ((λ j, {| fileNum := i; fileName := file; blockNum := j |})
       <$> seq 0 (length (map_index (d_counters d) file))) d) as Hshape.
  destruct (for_each (consume_ref bo g) _ d) as [d1|r d1]; simpl in Hshape; [|done].
  rewrite IH. f_equal. by apply blocks_from_ext.
Qed.
End scan.

Lemma filter_iff_on {A} (P1 P2 : A → Prop)
    `{!∀ x, Decision (P1 x), !∀ x, Decision (P2 x)} (l : list A) :
  (∀ x, x ∈ l → P1 x ↔ P2 x) → filter P1 l = filter P2 l.
Proof.
  induction l as [|x l IH]; intros Hl; [done|].
  rewrite !filter_cons, IH.
  - destruct (decide (P1 x)) as [H1|H1], (decide (P2 x)) as [H2|H2]; try done.
    + destruct H2. apply Hl; [left|done].
    + destruct H1. apply Hl; [left|done].
  - intros y Hy. apply Hl. by right.
Qed.

Section scan_blocks.
Context {W : Type} `{!Writer W}.
Variable bo : ByteOrder.
Variable g : GlobalData.

Lemma consume_ref_lookup (b : block_ref) (pc : Z) (d : Drain W) :
  pc_lookup g b = Some pc →
  consume_ref bo g b d
  = if decide (LoadUint32 (d_counters d) (fileName b) (blockNum b) = 0)
    then Continue d
    else
      let c := StoreUint32 (fileName b) (blockNum b) 0 (d_counters d) in
      let '(w, (n, err)) := Write (d_sink d) (PutUint64 bo pc) in
      let log := d_writes d ++ [(PutUint64 bo pc, (n, err))] in
      match err with
      | Some e =>
          let d' := {| d_counters := c; d_sink := w;
                       d_total := d_total d; d_writes := log |} in
          if decide (e = EOF) then Stop (Return (int_add (d_total d) n)) d'
          else Stop (Panics (write_panic e)) d'
      | None =>
          Continue {| d_counters := c; d_sink := w;
                      d_total := int_add (d_total d) n; d_writes := log |}
      end.
Proof.
  unfold pc_lookup. intros Hpc.
  destruct (syntheticPCs g !! fileNum b) as [row|] eqn:Hrow; simplify_eq/=.
  unfold consume_ref, consume_block.
  by rewrite (slice_index_in_range _ _ _ Hrow), (slice_index_in_range _ _ _ Hpc).
Qed.

(** One pass over blocks with distinct counters: a prefix is scanned;
    the log grows by the PCs of the scanned blocks that were hit, in
    order; exactly the counters of the scanned blocks are zero
    afterwards; the pass is cut short only by a failed write. *)
Lemma scan_blocks (bs : list block_ref) (d : Drain W) :
  NoDup (block_key <$> bs) →
  (∀ b, b ∈ bs → pc_lookup g b = Some (pc_of b)) →
  ∃ scanned rest,
    bs = scanned ++ rest
    ∧ (d_writes (flow_state (for_each (consume_ref bo g) bs d))).*1
      = (d_writes d).*1
        ++ ((λ b, PutUint64 bo (pc_of b))
              <$> filter (λ b, LoadUint32 (d_counters d) (fileName b) (blockNum b) ≠ 0)
                         scanned)
    ∧ (∀ file index,
         LoadUint32 (d_counters (flow_state (for_each (consume_ref bo g) bs d)))
                    file index
         = if decide ((file, index) ∈ block_key <$> scanned) then 0
           else LoadUint32 (d_counters d) file index)
    ∧ match for_each (consume_ref bo g) bs d with
      | Continue _ => rest = []
      | Stop _ d' => ¬ clean (d_writes d')
      end.
Proof.
  revert d. induction bs as [|b bs IH]; intros d Hnd Hpc.
  { exists [], []. split_and!; [done | simpl; by rewrite app_nil_r | | done].
    intros file index. cbn [for_each flow_state].
    rewrite decide_False; [done | apply not_elem_of_nil]. }
  rewrite fmap_cons in Hnd. apply NoDup_cons in Hnd as [Hb Hnd].
  assert (Hpcs : ∀ b', b' ∈ bs → pc_lookup g b' = Some (pc_of b')).
  { intros b' Hb'. apply Hpc. by right. }
  cbn [for_each].
  rewrite (consume_ref_lookup b (pc_of b)) by (apply Hpc; left).
  destruct (decide (LoadUint32 (d_counters d) (fileName b) (blockNum b) = 0))
    as [Hzero|Hhit].
  - (* not hit: continue *)
    destruct (IH d Hnd Hpcs) as (scanned & rest & -> & Hlog & Hctr & Hend).
    exists (b :: scanned), rest. split_and!; [done | | | done].
    + rewrite Hlog, filter_cons_False; [done | by intros ?].
    + intros file index. rewrite Hctr, fmap_cons.
      destruct (decide ((file, index) = block_key b)) as [Hk|Hk].
      * rewrite (decide_True (P := (file, index) ∈ block_key b :: _))
          by (rewrite Hk; left).
        case_decide; [done|]. by injection Hk as -> ->.
      * destruct (decide ((file, index) ∈ block_key <$> scanned)) as [Hin|Hin].
        -- rewrite decide_True; [done | by right].
        -- rewrite decide_False; [done | by apply not_elem_of_cons].
  - (* hit: store zero, write the PC *)
    cbn zeta.
    destruct (Write (d_sink d) (PutUint64 bo (pc_of b))) as [w [n [e|]]].
    + (* the write failed: the scan stops here *)
      exists [b], bs. split; [done|].
      set (d' := {| d_counters := StoreUint32 (fileName b) (blockNum b) 0 (d_counters d);
                    d_sink := w; d_total := d_total d;
                    d_writes := d_writes d ++ [(PutUint64 bo (pc_of b), (n, Some e))] |}).
      assert (Hstop : ∀ r : outcome Z,
        (d_writes (flow_state (@Stop (Drain W) (outcome Z) r d'))).*1
        = (d_writes d).*1
          ++ ((λ b, PutUint64 bo (pc_of b))
                <$> filter (λ b, LoadUint32 (d_counters d) (fileName b) (blockNum b) ≠ 0) [b])
        ∧ (∀ file index,
             LoadUint32 (d_counters (flow_state (@Stop (Drain W) (outcome Z) r d')))
                        file index
             = if decide ((file, index) ∈ block_key <$> [b]) then 0
               else LoadUint32 (d_counters d) file index)
        ∧ match @Stop (Drain W) (outcome Z) r d' with
          | Continue _ => bs = []
          | Stop _ d'' => ¬ clean (d_writes d'')
          end).
      { intros r. cbn [flow_state]. subst d'. cbn [d_writes d_counters].
        split_and!.
        - rewrite fmap_app. by rewrite filter_cons_True, filter_nil.
        - intros file index. rewrite LoadUint32_StoreUint32_zero.
          destruct (decide ((file, index) = (fileName b, blockNum b))) as [Hk|Hk].
          + rewrite decide_True; [done|]. rewrite Hk. left.
          + rewrite decide_False; [done|].
            intros [?|Hn]%elem_of_cons; [done|]. by apply elem_of_nil in Hn.
        - by apply (failed_write_not_clean _ [] (_, (n, Some e))). }
      destruct (decide (e = EOF)); apply Hstop.
    + (* the write succeeded: continue behind the block *)
      set (d1 := {| d_counters := StoreUint32 (fileName b) (blockNum b) 0 (d_counters d);
                    d_sink := w; d_total := int_add (d_total d) n;
                    d_writes := d_writes d ++ [(PutUint64 bo (pc_of b), (n, None))] |}).
      destruct (IH d1 Hnd Hpcs) as (scanned & rest & -> & Hlog & Hctr & Hend).
      assert (Hother : ∀ b', b' ∈ scanned →
                LoadUint32 (d_counters d1) (fileName b') (blockNum b')
                = LoadUint32 (d_counters d) (fileName b') (blockNum b')).
      { intros b' Hb'. simpl. rewrite LoadUint32_StoreUint32_zero.
        rewrite decide_False; [done|]. intros Hk. apply Hb.
        assert (block_key b = block_key b') as -> by done.
        apply (list_elem_of_fmap_2 block_key). apply elem_of_app. by left. }
      exists (b :: scanned), rest. split_and!; [done | | | done].
      * rewrite Hlog. simpl. rewrite fmap_app, <-app_assoc. simpl.
        rewrite filter_cons_True by done. cbn [fmap list_fmap]. do 3 f_equal.
        apply filter_iff_on. intros b' Hb'. by rewrite Hother.
      * intros file index. rewrite Hctr. unfold d1. cbn [d_counters].
        rewrite LoadUint32_StoreUint32_zero, fmap_cons.
        destruct (decide ((file, index) = (fileName b, blockNum b))) as [Hk|Hk].
        -- rewrite (decide_True (P := (file, index) ∈ block_key b :: _))
             by (rewrite Hk; left).
           by case_decide.
        -- destruct (decide ((file, index) ∈ block_key <$> scanned)) as [Hin|Hin].
           ++ rewrite decide_True; [done | by right].
           ++ rewrite decide_False; [done | by apply not_elem_of_cons].
Qed.
End scan_blocks.

(** ** The catalog after initialization *)

Lemma range_slice_imap {A B} (F : nat → A → B) (l : list A) (i : nat) (acc : list B) :
  range_slice (λ k x acc, acc ++ [F k x]) i l acc
  = acc ++ imap (λ k, F (i + k)%nat) l.
Proof.
  revert i acc. induction l as [|x l IH]; intros i acc; simpl.
  - by rewrite app_nil_r.
  - rewrite IH, <-app_assoc. simpl. rewrite Nat.add_0_r. do 2 f_equal.
    apply imap_ext. intros k y _. simpl. f_equal. lia.
Qed.

Lemma InitCoverageData_syntheticPCs (rb : list string) (s : World) :
  syntheticPCs (globalData (InitCoverageData rb s))
  = syntheticPCs (globalData s)
    ++ imap (λ fileNum file,
               imap (λ blockNum _, calculatePC (Z.of_nat fileNum) (Z.of_nat blockNum))
                    (map_index (Blocks (Cover s)) file))
            (files (globalData (InitCoverageData rb s))).
Proof.
  rewrite InitCoverageData_files. unfold InitCoverageData. simpl.
  rewrite range_slice_append.
  rewrite (range_slice_imap
    (λ fileNum file,
       range_slice
         (λ blockNum _ pcs, pcs ++ [calculatePC (Z.of_nat fileNum) (Z.of_nat blockNum)])
         0 (map_index (Blocks (Cover s)) file) [])).
  f_equal. apply imap_ext. intros fi file _. simpl.
  by rewrite (range_slice_imap (λ blockNum _, calculatePC (Z.of_nat fi) (Z.of_nat blockNum))).
Qed.

Lemma elem_of_blocks_from (size_of : string → nat) (fs : list string) (i : nat)
    (b : block_ref) :
  b ∈ blocks_from size_of i fs →
  ∃ k, fs !! k = Some (fileName b) ∧ fileNum b = (i + k)%nat
       ∧ (blockNum b < size_of (fileName b))%nat.
Proof.
  revert i. induction fs as [|file fs IH]; intros i; simpl.
  - by intros ?%elem_of_nil.
  - intros [Hrow|Hrest]%elem_of_app.
    + apply list_elem_of_fmap in Hrow as (j & -> & Hj).
      apply elem_of_seq in Hj. exists 0%nat. simpl. split_and!; [done | lia | lia].
    + destruct (IH _ Hrest) as (k & Hk & Hn & Hj).
      exists (S k). split_and!; [done | lia | done].
Qed.


Lemma blocks_from_NoDup_keys (size_of : string → nat) (fs : list string) (i : nat) :
  NoDup fs → NoDup (block_key <$> blocks_from size_of i fs).
Proof.
  revert i. induction fs as [|file fs IH]; intros i Hnd; simpl; [constructor|].
  apply NoDup_cons in Hnd as [Hfile Hnd].
  rewrite fmap_app. apply NoDup_app. split_and!; [| |by apply IH].
  - rewrite <-list_fmap_compose. apply NoDup_fmap_2_strong; [|apply NoDup_seq].
    intros j1 j2 _ _ Hk. by injection Hk.
  - intros key (b1 & -> & (j & -> & _)%list_elem_of_fmap)%list_elem_of_fmap
           (b2 & Hk & Hb2)%list_elem_of_fmap.
    destruct (elem_of_blocks_from _ _ _ _ Hb2) as (k & Hk2 & _).
    injection Hk as Hname _. simpl in Hname. apply Hfile.
    rewrite Hname. by apply list_elem_of_lookup_2 in Hk2.
Qed.

Lemma initialized_files_NoDup (s : World) :
  initialized s → NoDup (files (globalData s)).
Proof.
  intros (_ & rb & Hrb & ->). rewrite InitCoverageData_files. simpl.
  rewrite sort_Strings_Permutation, Hrb. apply NoDup_fst_map_to_list.
Qed.

Lemma initialized_syntheticPCs (s : World) :
  initialized s →
  syntheticPCs (globalData s)
  = imap (λ fileNum file,
            imap (λ blockNum _, calculatePC (Z.of_nat fileNum) (Z.of_nat blockNum))
                 (map_index (Blocks (Cover s)) file))
         (files (globalData s)).
Proof.
  intros (_ & rb & _ & Hg). rewrite Hg, InitCoverageData_syntheticPCs. done.
Qed.

Lemma initialized_pc_lookup (s : World) (b : block_ref) :
  initialized s → b ∈ catalog_blocks s →
  pc_lookup (globalData s) b = Some (pc_of b).
Proof.
  intros Hinit Hb.
  apply elem_of_blocks_from in Hb as (k & Hk & Hn & Hj). simpl in Hn.
  unfold pc_lookup. rewrite (initialized_syntheticPCs s Hinit).
  rewrite Hn, list_lookup_imap, Hk. simpl.
  rewrite list_lookup_imap.
  apply lookup_lt_is_Some in Hj as [blk ->]. simpl.
  unfold pc_of. by rewrite Hn.
Qed.

Lemma aligned_lengths (s : World) (file : string) :
  aligned s →
  length (map_index (Counters (Cover s)) file)
  = length (map_index (Blocks (Cover s)) file).
Proof.
  unfold aligned, map_index. intros Ha.
  assert (Hf : (length <$> Counters (Cover s)) !! file
               = (length <$> Blocks (Cover s)) !! file) by by rewrite Ha.
  rewrite !lookup_fmap in Hf.
  destruct (Counters (Cover s) !! file), (Blocks (Cover s) !! file);
    by simplify_eq/=.
Qed.

Lemma ConsumeCoverageData_flow {W} `{!Writer W} (bo : ByteOrder)
    (rb : list string) (w : W) (s : World) :
  let fl := consume_files bo (globalData (once_Do_InitCoverageData rb s))
              (drain_start w (once_Do_InitCoverageData rb s)) in
  writes (ConsumeCoverageData bo rb w s) = d_writes (flow_state fl)
  ∧ Counters (Cover (world (ConsumeCoverageData bo rb w s)))
    = d_counters (flow_state fl).
Proof.
  unfold ConsumeCoverageData, drain_start. simpl.
  by destruct (consume_files _ _ _).
Qed.


(** ** A flush that finds nothing *)

Lemma InitCoverageData_Cover (rb : list string) (s : World) :
  Cover (InitCoverageData rb s) = Cover s.
Proof. done. Qed.

Lemma once_Do_InitCoverageData_Cover (rb : list string) (s : World) :
  Cover (once_Do_InitCoverageData rb s) = Cover s.
Proof. unfold once_Do_InitCoverageData. by destruct (once s). Qed.

Lemma for_each_skip {A St R} (body : A → St → flow St R) (l : list A) (s : St) :
  (∀ x, x ∈ l → body x s = Continue s) → for_each body l s = Continue s.
Proof.
  induction l as [|x l IH]; intros Hskip; simpl; [done|].
  rewrite Hskip by left. apply IH. intros y Hy. apply Hskip. by right.
Qed.

(** With no counter hit since the last flush, nothing is written and the
    call panics, whatever the writer would have answered. *)
Lemma ConsumeCoverageData_no_hit {W} `{!Writer W} (bo : ByteOrder)
    (rb : list string) (w : W) (s : World) :
  (∀ file index, LoadUint32 (Counters (Cover s)) file index = 0) →
  result (ConsumeCoverageData bo rb w s) = Panics no_coverage_panic
  ∧ writes (ConsumeCoverageData bo rb w s) = [].
Proof.
  intros Hzero. unfold ConsumeCoverageData, consume_files.
  rewrite consume_files_flat, for_each_skip.
  - done.
  - intros b _. unfold consume_ref, consume_block. simpl.
    rewrite once_Do_InitCoverageData_Cover. by rewrite decide_True.
Qed.

(** ** The statements at sample data *)

Lemma two_files_ready_initialized : initialized two_files_ready.
Proof.
  split; [reflexivity|]. exists ["b.go"; "a.go"]. split.
  - unfold range_order. vm_compute. apply perm_swap.
  - vm_compute. reflexivity.
Defined.

Lemma two_files_ready_aligned : aligned two_files_ready.
Proof. unfold aligned. vm_compute. reflexivity. Defined.



Lemma C3_witness :
  once two_files_ready = true ∧ ((3, 7) : Z * Z) ≠ (7, 3)
  ∧ calculatePC 3 7 ≠ calculatePC 7 3.
Proof.
  split; [reflexivity|]. split; [congruence|].
  apply (C3_calculatePC_injective_within_16_bits LittleEndian [] []
           {| area := []; room := 64 |} two_files_ready 3 7 7 3);
    [reflexivity | lia | lia | lia | lia | congruence].
Defined.

Lemma C9_witness :
  range_order (Blocks (Cover two_files)) ["b.go"; "a.go"]
  ∧ range_order (Blocks (Cover two_files)) ["a.go"; "b.go"]
  ∧ globalData (InitCoverageData ["b.go"; "a.go"] two_files)
    = globalData (InitCoverageData ["a.go"; "b.go"] two_files).
Proof.
  assert (H1 : range_order (Blocks (Cover two_files)) ["b.go"; "a.go"]).
  { unfold range_order. vm_compute. apply perm_swap. }
  assert (H2 : range_order (Blocks (Cover two_files)) ["a.go"; "b.go"]).
  { unfold range_order. vm_compute. reflexivity. }
  split; [exact H1|]. split; [exact H2|].
  exact (C9_InitCoverageData_deterministic two_files two_files _ _
           eq_refl eq_refl H1 H2).
Defined.

Lemma C10_witness :
  -1 < 0
  ∧ FileFromIndex two_files_ready (-1) = Panics (runtime_index_out_of_range (-1) 2)
  ∧ BlockFromIndex two_files_ready "a.go" (-1)
    = Panics (runtime_index_out_of_range (-1) 2).
Proof.
  assert (Hneg : -1 < 0) by lia.
  destruct (C10_negative_index_not_rejected two_files_ready "a.go" (-1) Hneg)
    as (Hfile & Hblock & _).
  split; [exact Hneg|]. split; [exact Hfile | exact Hblock].
Defined.

(** The flush of the sample data: the three hit blocks are reported in
    catalog order, 24 bytes are written, every counter ends at zero. *)
Example flush_two_files :
  let r := ConsumeCoverageData LittleEndian [] {| area := []; room := 64 |}
             two_files_ready in
  result r = Return 24
  ∧ (writes r).*1 = PutUint64 LittleEndian <$> [1; 65536; 65538]
  ∧ Counters (Cover (world r)) = {[ "b.go" := [0; 0; 0]; "a.go" := [0; 0] ]}.
Proof. vm_compute. split_and!; reflexivity. Qed.

(** A second flush without new hits panics. *)
Example flush_twice_panics :
  let r := ConsumeCoverageData LittleEndian [] {| area := []; room := 64 |}
             two_files_ready in
  result (ConsumeCoverageData LittleEndian [] (sink r) (world r))
  = Panics no_coverage_panic.
Proof. vm_compute. reflexivity. Qed.

(** [FileFromIndex] and [BlockFromIndex] around the end of their slices. *)
Example lookups_at_the_bounds :
  FileFromIndex two_files_ready 1 = Return ("b.go", None)
  ∧ FileFromIndex two_files_ready 2 = Panics (runtime_index_out_of_range 2 2)
  ∧ FileFromIndex two_files_ready 3 = Return ("", Some (file_index_out_of_range 3 2))
  ∧ BlockFromIndex two_files_ready "a.go" 2 = Panics (runtime_index_out_of_range 2 2)
  ∧ BlockFromIndex two_files_ready "a.go" 3
    = Return (CoverBlock_zero, Some (block_index_out_of_range 3 2))
  ∧ BlockFromIndex two_files_ready "c.go" 0 = Panics (runtime_index_out_of_range 0 0).
Proof. split_and!; reflexivity. Qed.

(** * Further properties of the package *)

(** ** The catalog that [InitCoverageData] builds *)

Lemma range_order_elem_of {A} (m : gmap string A) (keys : list string) (k : string) :
  range_order m keys → k ∈ keys ↔ is_Some (m !! k).
Proof.
  unfold range_order. intros ->. rewrite list_elem_of_fmap. split.
  - intros ([k' x] & -> & Hx). apply elem_of_map_to_list in Hx. by exists x.
  - intros [x Hx]. exists (k, x). split; [done|]. by apply elem_of_map_to_list.
Qed.

Lemma range_order_NoDup {A} (m : gmap string A) (keys : list string) :
  range_order m keys → NoDup keys.
Proof. unfold range_order. intros ->. apply NoDup_fst_map_to_list. Qed.

Lemma InitCoverageData_zero_files (rb : list string) (s : World) :
  globalData s = globalData_zero →
  files (globalData (InitCoverageData rb s)) = sort_Strings rb.
Proof. intros Hg. by rewrite InitCoverageData_files, Hg. Qed.

(** X1: built from the zero state, [globalData.files] is sorted in
    ascending byte order, repeats no name, and lists exactly the files
    registered in [coverdata.Cover.Blocks]. *)
Theorem X1_InitCoverageData_files_are_the_sorted_keys (rb : list string) (s : World) :
  globalData s = globalData_zero →
  range_order (Blocks (Cover s)) rb →
  Sorted String.le (files (globalData (InitCoverageData rb s)))
  ∧ NoDup (files (globalData (InitCoverageData rb s)))
  ∧ ∀ file, file ∈ files (globalData (InitCoverageData rb s))
            ↔ is_Some (Blocks (Cover s) !! file).
Proof.
  intros Hg Hrb. rewrite InitCoverageData_zero_files by done. split_and!.
  - apply sort_Strings_Sorted.
  - rewrite sort_Strings_Permutation. by eapply range_order_NoDup.
  - intros file. rewrite sort_Strings_Permutation. by apply range_order_elem_of.
Qed.

Lemma X1_witness :
  globalData two_files = globalData_zero
  ∧ range_order (Blocks (Cover two_files)) ["b.go"; "a.go"]
  ∧ Sorted String.le (files (globalData (InitCoverageData ["b.go"; "a.go"] two_files))).
Proof.
  assert (Hr : range_order (Blocks (Cover two_files)) ["b.go"; "a.go"]).
  { unfold range_order. vm_compute. apply perm_swap. }
  split; [reflexivity|]. split; [exact Hr|].
  exact (proj1 (X1_InitCoverageData_files_are_the_sorted_keys
                  ["b.go"; "a.go"] two_files eq_refl Hr)).
Defined.

Lemma imap_index_only {A B} (F : nat → B) (l : list A) :
  imap (λ j _, F j) l = F <$> seq 0 (length l).
Proof.
  apply list_eq. intros j. rewrite list_lookup_imap, list_lookup_fmap.
  destruct (l !! j) as [x|] eqn:Hj; simpl.
  - apply lookup_lt_Some in Hj. by rewrite lookup_seq_lt.
  - apply lookup_ge_None in Hj. by rewrite lookup_seq_ge.
Qed.

(** X2: built from the zero state, [globalData.syntheticPCs] has one row
    per file, and the row of the file with ordinal [i] holds
    [calculatePC(i, 0)], [calculatePC(i, 1)], ... for as many blocks as the
    file has. *)
Theorem X2_InitCoverageData_rows_follow_calculatePC (rb : list string) (s : World)
    (i : nat) (file : string) :
  globalData s = globalData_zero →
  files (globalData (InitCoverageData rb s)) !! i = Some file →
  length (syntheticPCs (globalData (InitCoverageData rb s)))
    = length (files (globalData (InitCoverageData rb s)))
  ∧ syntheticPCs (globalData (InitCoverageData rb s)) !! i
    = Some ((λ j, calculatePC (Z.of_nat i) (Z.of_nat j))
              <$> seq 0 (length (map_index (Blocks (Cover s)) file))).
Proof.
  intros Hg Hfile. rewrite InitCoverageData_syntheticPCs, Hg.
  change (syntheticPCs globalData_zero) with (@nil (list Z)). rewrite app_nil_l.
  split.
  - by rewrite length_imap.
  - rewrite list_lookup_imap, Hfile. simpl. f_equal.
    apply (imap_index_only (λ j, calculatePC (Z.of_nat i) (Z.of_nat j))).
Qed.

Lemma X2_witness :
  globalData two_files = globalData_zero
  ∧ files (globalData (InitCoverageData ["b.go"; "a.go"] two_files)) !! 1%nat
    = Some "b.go"
  ∧ syntheticPCs (globalData (InitCoverageData ["b.go"; "a.go"] two_files)) !! 1%nat
    = Some [65536; 65537; 65538].
Proof.
  assert (Hf : files (globalData (InitCoverageData ["b.go"; "a.go"] two_files)) !! 1%nat
               = Some "b.go") by (vm_compute; reflexivity).
  split; [reflexivity|]. split; [exact Hf|].
  destruct (X2_InitCoverageData_rows_follow_calculatePC
              ["b.go"; "a.go"] two_files 1 "b.go" eq_refl Hf) as [_ ->].
  vm_compute. reflexivity.
Defined.

Lemma blocks_from_elem_of (size_of : string → nat) (fs : list string) (i k j : nat)
    (file : string) :
  fs !! k = Some file → (j < size_of file)%nat →
  {| fileNum := i + k; fileName := file; blockNum := j |} ∈ blocks_from size_of i fs.
Proof.
  revert i k. induction fs as [|f fs IH]; intros i [|k] Hk Hj; simplify_eq/=.
  - apply elem_of_app. left. rewrite Nat.add_0_r.
    apply (list_elem_of_fmap_2 (λ j, {| fileNum := i; fileName := file; blockNum := j |})).
    apply elem_of_seq. lia.
  - apply elem_of_app. right.
    replace (i + S k)%nat with (S i + k)%nat by lia. by apply IH.
Qed.

Lemma initialized_files_elem_of (s : World) (file : string) :
  initialized s → file ∈ files (globalData s) ↔ is_Some (Blocks (Cover s) !! file).
Proof.
  intros (_ & rb & Hrb & ->). rewrite InitCoverageData_zero_files by done.
  rewrite sort_Strings_Permutation. by apply range_order_elem_of.
Qed.

Lemma catalog_blocks_keys (s : World) (file : string) (j : nat) :
  initialized s →
  (file, j) ∈ block_key <$> catalog_blocks s
  ↔ (j < length (map_index (Blocks (Cover s)) file))%nat.
Proof.
  intros Hinit. split.
  - intros (b & Hk & Hb)%list_elem_of_fmap.
    apply elem_of_blocks_from in Hb as (_ & _ & _ & Hj).
    by injection Hk as -> ->.
  - intros Hj.
    assert (Hreg : is_Some (Blocks (Cover s) !! file)).
    { unfold map_index in Hj. destruct (Blocks (Cover s) !! file); [done|].
      simpl in Hj. lia. }
    apply initialized_files_elem_of, list_elem_of_lookup in Hreg as [k Hk]; [|done].
    apply list_elem_of_fmap.
    exists {| fileNum := 0 + k; fileName := file; blockNum := j |}.
    split; [done|]. by apply blocks_from_elem_of.
Qed.

(** X3: once the catalog is built, the two nested loops over it reach
    every block of every registered file, and none twice: a pair (file,
    index) is visited exactly when [index] is below the number of blocks
    registered for [file]. *)
Theorem X3_catalog_covers_every_registered_block (s : World) :
  initialized s →
  NoDup (block_key <$> catalog_blocks s)
  ∧ ∀ file j, (file, j) ∈ block_key <$> catalog_blocks s
              ↔ (j < length (map_index (Blocks (Cover s)) file))%nat.
Proof.
  intros Hinit. split.
  - by apply blocks_from_NoDup_keys, initialized_files_NoDup.
  - intros file j. by apply catalog_blocks_keys.
Qed.

Lemma X3_witness :
  initialized two_files_ready
  ∧ NoDup (block_key <$> catalog_blocks two_files_ready).
Proof.
  split; [exact two_files_ready_initialized|].
  exact (proj1 (X3_catalog_covers_every_registered_block two_files_ready
                  two_files_ready_initialized)).
Defined.

(** ** Lookups into the catalog *)

Lemma FileFromIndex_in_range (s : World) (n : nat) (file : string) :
  files (globalData s) !! n = Some file →
  FileFromIndex s (Z.of_nat n) = Return (file, None).
Proof.
  intros Hn. unfold FileFromIndex.
  pose proof (lookup_lt_Some _ _ _ Hn) as Hlt.
  rewrite decide_False by (unfold len; lia).
  by rewrite (slice_index_in_range _ _ _ Hn).
Qed.

Lemma BlockFromIndex_in_range (s : World) (file : string) (n : nat)
    (block : coverdata_CoverBlock) :
  map_index (Blocks (Cover s)) file !! n = Some block →
  BlockFromIndex s file (Z.of_nat n) = Return (to_CoverBlock block, None).
Proof.
  intros Hn. unfold BlockFromIndex.
  pose proof (lookup_lt_Some _ _ _ Hn) as Hlt.
  rewrite decide_False by (unfold len; lia).
  by rewrite (slice_index_in_range _ _ _ Hn).
Qed.

(** X4: every position the catalog loops visit resolves through the
    lookups: [FileFromIndex] of the file ordinal returns the file's name,
    and [BlockFromIndex] of that name and the block ordinal returns the
    block's position, both without error. *)
Theorem X4_lookups_resolve_every_catalog_position (s : World) (b : block_ref) :
  b ∈ catalog_blocks s →
  FileFromIndex s (Z.of_nat (fileNum b)) = Return (fileName b, None)
  ∧ ∃ block,
      map_index (Blocks (Cover s)) (fileName b) !! blockNum b = Some block
      ∧ BlockFromIndex s (fileName b) (Z.of_nat (blockNum b))
        = Return (to_CoverBlock block, None).
Proof.
  intros Hb. apply elem_of_blocks_from in Hb as (k & Hk & Hn & Hj).
  simpl in Hn. subst k. split; [by apply FileFromIndex_in_range|].
  apply lookup_lt_is_Some in Hj as [block Hblock].
  exists block. split; [done|]. by apply BlockFromIndex_in_range.
Qed.

Lemma X4_witness :
  {| fileNum := 1; fileName := "b.go"; blockNum := 2 |} ∈ catalog_blocks two_files_ready
  ∧ FileFromIndex two_files_ready 1 = Return ("b.go", None).
Proof.
  assert (Hb : {| fileNum := 1; fileName := "b.go"; blockNum := 2 |}
               ∈ catalog_blocks two_files_ready).
  { vm_compute. do 4 right. left. }
  split; [exact Hb|].
  exact (proj1 (X4_lookups_resolve_every_catalog_position two_files_ready _ Hb)).
Defined.

Lemma StronglySorted_lookup_lt {A} (R : relation A) (l : list A) (i j : nat) (x y : A) :
  StronglySorted R l → l !! i = Some x → l !! j = Some y → (i < j)%nat → R x y.
Proof.
  intros Hl. revert i j. induction Hl as [|z l Hl IH Hz]; intros i j Hi Hj Hlt.
  - by rewrite lookup_nil in Hi.
  - destruct j as [|j]; [lia|]. destruct i as [|i]; simplify_eq/=.
    + rewrite Forall_forall in Hz. apply Hz. by eapply list_elem_of_lookup_2.
    + apply (IH i j); [done..|lia].
Qed.

(** X5: once the catalog is built, [FileFromIndex] enumerates the files in
    strictly ascending byte order: a smaller in-range index returns a
    different name that sorts before the one of a larger index. *)
Theorem X5_FileFromIndex_is_strictly_ascending (s : World) (i j : nat) :
  initialized s → (i < j)%nat → (j < length (files (globalData s)))%nat →
  ∃ fi fj,
    FileFromIndex s (Z.of_nat i) = Return (fi, None)
    ∧ FileFromIndex s (Z.of_nat j) = Return (fj, None)
    ∧ String.le fi fj ∧ fi ≠ fj.
Proof.
  intros Hinit Hij Hj.
  destruct (lookup_lt_is_Some_2 (files (globalData s)) i) as [fi Hfi]; [lia|].
  destruct (lookup_lt_is_Some_2 (files (globalData s)) j) as [fj Hfj]; [lia|].
  exists fi, fj. split_and!; [by apply FileFromIndex_in_range..| |].
  - assert (Hs : StronglySorted String.le (files (globalData s))).
    { destruct Hinit as (_ & rb & _ & ->).
      apply Sorted_StronglySorted; [apply _|].
      rewrite InitCoverageData_files. apply sort_Strings_Sorted. }
    by apply (StronglySorted_lookup_lt _ _ i j _ _ Hs).
  - intros ->. pose proof (initialized_files_NoDup s Hinit) as Hnd.
    pose proof (NoDup_lookup _ _ _ _ Hnd Hfi Hfj). lia.
Qed.

Lemma X5_witness :
  initialized two_files_ready
  ∧ ∃ fi fj,
      FileFromIndex two_files_ready 0 = Return (fi, None)
      ∧ FileFromIndex two_files_ready 1 = Return (fj, None)
      ∧ String.le fi fj ∧ fi ≠ fj.
Proof.
  split; [exact two_files_ready_initialized|].
  apply (X5_FileFromIndex_is_strictly_ascending two_files_ready 0 1
           two_files_ready_initialized); [lia | vm_compute; lia].
Defined.

(** X6: for a file that is not registered [BlockFromIndex] never returns a
    block and has no not-found error: the nil slice has length 0, so a
    positive index gets the out-of-range error with length 0 and any other
    index panics in the slice access. *)
Theorem X6_BlockFromIndex_of_unregistered_file (s : World) (file : string) (i : Z) :
  Blocks (Cover s) !! file = None →
  BlockFromIndex s file i
  = if decide (i > 0)
    then Return (CoverBlock_zero, Some (block_index_out_of_range i 0))
    else Panics (runtime_index_out_of_range i 0).
Proof.
  intros Hfile. unfold BlockFromIndex, map_index. rewrite Hfile. simpl.
  change (len []) with 0.
  destruct (decide (i > 0)) as [Hi|Hi]; [done|].
  unfold slice_index. case_decide; [|done].
  by rewrite lookup_nil.
Qed.

Lemma X6_witness :
  Blocks (Cover two_files_ready) !! "c.go" = None
  ∧ BlockFromIndex two_files_ready "c.go" 0 = Panics (runtime_index_out_of_range 0 0)
  ∧ BlockFromIndex two_files_ready "c.go" 1
    = Return (CoverBlock_zero, Some (block_index_out_of_range 1 0)).
Proof.
  assert (Hc : Blocks (Cover two_files_ready) !! "c.go" = None)
    by (vm_compute; reflexivity).
  split; [exact Hc|]. split.
  - exact (X6_BlockFromIndex_of_unregistered_file two_files_ready "c.go" 0 Hc).
  - exact (X6_BlockFromIndex_of_unregistered_file two_files_ready "c.go" 1 Hc).
Defined.

(** ** The table of synthetic PCs *)








(** ** Flushes in sequence *)

Lemma set_Counters_same (s : World) : set_Counters (Counters (Cover s)) s = s.
Proof. by destruct s as [[??] ??]. Qed.

(** A flush that meets no hit leaves everything as it is. *)
Lemma ConsumeCoverageData_no_hit_state {W} `{!Writer W} (bo : ByteOrder)
    (rb : list string) (w : W) (s : World) :
  (∀ file index, LoadUint32 (Counters (Cover s)) file index = 0) →
  sink (ConsumeCoverageData bo rb w s) = w
  ∧ world (ConsumeCoverageData bo rb w s) = once_Do_InitCoverageData rb s.
Proof.
  intros Hzero. unfold ConsumeCoverageData, consume_files.
  rewrite consume_files_flat, for_each_skip.
  - simpl. split; [done | apply set_Counters_same].
  - intros b _. unfold consume_ref, consume_block. simpl.
    rewrite once_Do_InitCoverageData_Cover. by rewrite decide_True.
Qed.

Lemma ClearCoverageData_Counters_lookup (rc : list string) (s : World) (file : string) :
  Counters (Cover (ClearCoverageData rc s)) !! file
  = if decide (file ∈ rc)
    then (λ cs, replicate (length cs) 0) <$> Counters (Cover s) !! file
    else Counters (Cover s) !! file.
Proof. apply (clear_files_lookup rc 0 (Counters (Cover s)) file). Qed.

Lemma ClearCoverageData_no_hit (rc : list string) (s : World) (file : string) (index : nat) :
  range_order (Counters (Cover s)) rc →
  LoadUint32 (Counters (Cover (ClearCoverageData rc s))) file index = 0.
Proof.
  intros Hrc. unfold LoadUint32, map_index.
  rewrite ClearCoverageData_Counters_lookup.
  destruct (Counters (Cover s) !! file) as [cs|] eqn:Hf.
  - rewrite decide_True by (apply (range_order_elem_of _ _ _ Hrc); eauto).
    simpl. destruct (replicate (length cs) 0 !! index) as [x|] eqn:Hx; [|done].
    by apply lookup_replicate in Hx as [-> _].
  - by destruct (decide (file ∈ rc)).
Qed.

(** X8: a flush right after [ClearCoverageData] reports nothing: it hands
    nothing to the writer, leaves the writer as it was, and panics with the
    no-coverage message. *)
Theorem X8_flush_after_reset_reports_nothing {W} `{!Writer W} (bo : ByteOrder)
    (rb rc : list string) (w : W) (s : World) :
  range_order (Counters (Cover s)) rc →
  result (ConsumeCoverageData bo rb w (ClearCoverageData rc s))
    = Panics no_coverage_panic
  ∧ writes (ConsumeCoverageData bo rb w (ClearCoverageData rc s)) = []
  ∧ sink (ConsumeCoverageData bo rb w (ClearCoverageData rc s)) = w.
Proof.
  intros Hrc.
  assert (Hzero : ∀ file index,
            LoadUint32 (Counters (Cover (ClearCoverageData rc s))) file index = 0).
  { intros file index. by apply ClearCoverageData_no_hit. }
  destruct (ConsumeCoverageData_no_hit bo rb w _ Hzero) as [Hres Hlog].
  destruct (ConsumeCoverageData_no_hit_state bo rb w _ Hzero) as [Hsink _].
  done.
Qed.

Lemma X8_witness :
  range_order (Counters (Cover two_files_ready)) ["a.go"; "b.go"]
  ∧ result (ConsumeCoverageData LittleEndian [] {| area := []; room := 64 |}
              (ClearCoverageData ["a.go"; "b.go"] two_files_ready))
    = Panics no_coverage_panic.
Proof.
  assert (Hr : range_order (Counters (Cover two_files_ready)) ["a.go"; "b.go"]).
  { unfold range_order. vm_compute. reflexivity. }
  split; [exact Hr|].
  exact (proj1 (X8_flush_after_reset_reports_nothing LittleEndian []
                  ["a.go"; "b.go"] {| area := []; room := 64 |} two_files_ready Hr)).
Defined.

(** What a flush over an initialized, aligned catalog does, in the terms of
    [scan_blocks], together with its result when no write failed. *)
Lemma ConsumeCoverageData_scan {W} `{!Writer W} (bo : ByteOrder)
    (rb : list string) (w : W) (s : World) :
  initialized s → aligned s →
  ∃ scanned rest,
    catalog_blocks s = scanned ++ rest
    ∧ (writes (ConsumeCoverageData bo rb w s)).*1
      = (λ b, PutUint64 bo (pc_of b)) <$> filter (λ b, counter_of s b ≠ 0) scanned
    ∧ (∀ file index,
         LoadUint32 (Counters (Cover (world (ConsumeCoverageData bo rb w s)))) file index
         = if decide ((file, index) ∈ block_key <$> scanned) then 0
           else LoadUint32 (Counters (Cover s)) file index)
    ∧ (clean (writes (ConsumeCoverageData bo rb w s)) →
       rest = []
       ∧ result (ConsumeCoverageData bo rb w s)
         = if decide (sum_written 0 (writes (ConsumeCoverageData bo rb w s)) = 0)
           then Panics no_coverage_panic
           else Return (sum_written 0 (writes (ConsumeCoverageData bo rb w s)))).
Proof.
  intros Hinit Halign.
  assert (Hflat : consume_files bo (globalData s) (drain_start w s)
                  = for_each (consume_ref bo (globalData s)) (catalog_blocks s)
                             (drain_start w s)).
  { unfold consume_files. rewrite consume_files_flat. f_equal.
    apply blocks_from_ext. intros file. by apply aligned_lengths. }
  assert (Hnd : NoDup (block_key <$> catalog_blocks s)).
  { by apply blocks_from_NoDup_keys, initialized_files_NoDup. }
  destruct (scan_blocks bo (globalData s) (catalog_blocks s) (drain_start w s) Hnd)
    as (scanned & rest & Hcat & Hlog & Hctr & Hend).
  { intros b Hb. by apply initialized_pc_lookup. }
  pose proof (drained_consume_files bo (globalData s) (drain_start w s)) as Hd.
  rewrite <-Hflat in Hlog, Hctr, Hend.
  exists scanned, rest. unfold ConsumeCoverageData.
  rewrite once_Do_InitCoverageData_done by apply Hinit.
  change {| d_counters := Counters (Cover s); d_sink := w; d_total := 0; d_writes := [] |}
    with (drain_start w s).
  destruct (consume_files bo (globalData s) (drain_start w s)) as [d|r d];
    simpl in *; (split_and!; [done | done | done |]).
  - intros _. split; [done|].
    inversion Hd as [new ? Hw Hc Ht| | |]; subst. simpl in Hw, Ht.
    by rewrite Hw, Ht.
  - intros Hclean. by destruct Hend.
Qed.

Lemma ConsumeCoverageData_drains_all {W} `{!Writer W} (bo : ByteOrder)
    (rb : list string) (w : W) (s : World) (file : string) (index : nat) :
  initialized s → aligned s →
  clean (writes (ConsumeCoverageData bo rb w s)) →
  LoadUint32 (Counters (Cover (world (ConsumeCoverageData bo rb w s)))) file index = 0.
Proof.
  intros Hinit Halign Hclean.
  destruct (ConsumeCoverageData_scan bo rb w s Hinit Halign)
    as (scanned & rest & Hcat & _ & Hctr & Hend).
  destruct (Hend Hclean) as [-> _]. rewrite app_nil_r in Hcat. subst scanned.
  rewrite Hctr. clear Hctr Hend.
  destruct (decide ((file, index) ∈ block_key <$> catalog_blocks s)) as [Hin|Hin];
    [done|].
  rewrite catalog_blocks_keys in Hin by done.
  rewrite <-(aligned_lengths s file Halign) in Hin.
  unfold LoadUint32. rewrite lookup_ge_None_2; [done | lia].
Qed.

(** X9: after a flush in which no write failed, a second flush without new
    hits hands nothing to its writer and panics with the no-coverage
    message: every hit is reported by one flush only. *)
Theorem X9_second_flush_reports_nothing {W} `{!Writer W} (bo : ByteOrder)
    (rb rb' : list string) (w w' : W) (s : World) :
  initialized s → aligned s →
  clean (writes (ConsumeCoverageData bo rb w s)) →
  result (ConsumeCoverageData bo rb' w' (world (ConsumeCoverageData bo rb w s)))
    = Panics no_coverage_panic
  ∧ writes (ConsumeCoverageData bo rb' w' (world (ConsumeCoverageData bo rb w s))) = [].
Proof.
  intros Hinit Halign Hclean. apply ConsumeCoverageData_no_hit.
  intros file index. by apply ConsumeCoverageData_drains_all.
Qed.

Lemma X9_witness :
  initialized two_files_ready ∧ aligned two_files_ready
  ∧ clean (writes (ConsumeCoverageData LittleEndian [] {| area := []; room := 64 |}
                     two_files_ready))
  ∧ writes (ConsumeCoverageData LittleEndian [] {| area := []; room := 8 |}
              (world (ConsumeCoverageData LittleEndian [] {| area := []; room := 64 |}
                        two_files_ready))) = [].
Proof.
  assert (Hc : clean (writes (ConsumeCoverageData LittleEndian []
                                {| area := []; room := 64 |} two_files_ready))).
  { vm_compute. repeat constructor. }
  split; [exact two_files_ready_initialized|].
  split; [exact two_files_ready_aligned|]. split; [exact Hc|].
  exact (proj2 (X9_second_flush_reports_nothing LittleEndian [] []
                  {| area := []; room := 64 |} {| area := []; room := 8 |}
                  two_files_ready two_files_ready_initialized
                  two_files_ready_aligned Hc)).
Defined.

(** ** What the collection paths keep *)

Lemma StoreUint32_lengths (file : string) (index : nat) (v : Z)
    (c : gmap string (list Z)) :
  length <$> StoreUint32 file index v c = length <$> c.
Proof.
  apply map_eq. intros file'. rewrite !lookup_fmap, StoreUint32_lookup.
  case_decide; [|done]. destruct (c !! file'); simpl; [|done].
  by rewrite length_insert.
Qed.

Lemma consume_block_lengths {W} `{!Writer W} (bo : ByteOrder) (g : GlobalData)
    (fileIndex : nat) (file : string) (index : nat) (d : Drain W) :
  length <$> d_counters (flow_state (consume_block bo g fileIndex file index d))
  = length <$> d_counters d.
Proof.
  unfold consume_block. case_decide; [done|].
  destruct (slice_index (syntheticPCs g) _) as [row|p]; simpl;
    [|apply StoreUint32_lengths].
  destruct (slice_index row _) as [pc|p]; simpl; [|apply StoreUint32_lengths].
  destruct (Write _ _) as [w [n [e|]]]; [case_decide|]; apply StoreUint32_lengths.
Qed.

Lemma for_each_lengths {W} `{!Writer W} (bo : ByteOrder) (g : GlobalData)
    (bs : list block_ref) (d : Drain W) :
  length <$> d_counters (flow_state (for_each (consume_ref bo g) bs d))
  = length <$> d_counters d.
Proof.
  revert d. induction bs as [|b bs IH]; intros d; simpl; [done|].
  pose proof (consume_block_lengths bo g (fileNum b) (fileName b) (blockNum b) d) as Hb.
  unfold consume_ref at 1.
  destruct (consume_block _ _ _ _ _ d) as [d1|r d1]; simpl in *; [|done].
  by rewrite IH.
Qed.

Lemma ConsumeCoverageData_lengths {W} `{!Writer W} (bo : ByteOrder)
    (rb : list string) (w : W) (s : World) :
  length <$> Counters (Cover (world (ConsumeCoverageData bo rb w s)))
  = length <$> Counters (Cover s).
Proof.
  destruct (ConsumeCoverageData_flow bo rb w s) as [_ ->].
  unfold consume_files. rewrite consume_files_flat, for_each_lengths. simpl.
  by rewrite once_Do_InitCoverageData_Cover.
Qed.

Lemma ClearCoverageData_lengths (rc : list string) (s : World) :
  length <$> Counters (Cover (ClearCoverageData rc s))
  = length <$> Counters (Cover s).
Proof.
  apply map_eq. intros file.
  rewrite !lookup_fmap, ClearCoverageData_Counters_lookup.
  destruct (decide (file ∈ rc)); [|done].
  destruct (Counters (Cover s) !! file); simpl; [|done].
  by rewrite length_replicate.
Qed.

Lemma InitCoverageData_globalData_ext (rb : list string) (s1 s2 : World) :
  Blocks (Cover s1) = Blocks (Cover s2) → globalData s1 = globalData s2 →
  globalData (InitCoverageData rb s1) = globalData (InitCoverageData rb s2).
Proof. intros HB Hg. unfold InitCoverageData. simpl. by rewrite HB, Hg. Qed.

Lemma initialized_ext (s s' : World) :
  initialized s → once s' = true →
  Blocks (Cover s') = Blocks (Cover s) → globalData s' = globalData s →
  initialized s'.
Proof.
  intros (_ & rb & Hrb & Hg) Ho HB Hg'. split; [done|].
  exists rb. rewrite HB, Hg', Hg. split; [done|].
  by apply InitCoverageData_globalData_ext.
Qed.

Lemma ConsumeCoverageData_frame {W} `{!Writer W} (bo : ByteOrder)
    (rb : list string) (w : W) (s : World) :
  Blocks (Cover (world (ConsumeCoverageData bo rb w s))) = Blocks (Cover s)
  ∧ globalData (world (ConsumeCoverageData bo rb w s))
    = globalData (once_Do_InitCoverageData rb s)
  ∧ once (world (ConsumeCoverageData bo rb w s)) = true.
Proof.
  destruct (ConsumeCoverageData_world bo rb w s) as [c ->]. simpl.
  rewrite once_Do_InitCoverageData_Cover. split_and!; [done..|].
  apply once_Do_InitCoverageData_once.
Qed.

(** X10: the first flush of a process builds the catalog: started from the
    zero state with the gate open, [ConsumeCoverageData] leaves the catalog
    that [InitCoverageData] computes and the gate closed. *)
Theorem X10_first_flush_builds_the_catalog {W} `{!Writer W} (bo : ByteOrder)
    (rb : list string) (w : W) (s : World) :
  once s = false → globalData s = globalData_zero →
  range_order (Blocks (Cover s)) rb →
  initialized (world (ConsumeCoverageData bo rb w s))
  ∧ globalData (world (ConsumeCoverageData bo rb w s))
    = globalData (InitCoverageData rb s).
Proof.
  intros Ho Hg Hrb.
  destruct (ConsumeCoverageData_frame bo rb w s) as (HB & Hgd & Hdone).
  assert (Hgd' : globalData (world (ConsumeCoverageData bo rb w s))
                 = globalData (InitCoverageData rb s)).
  { rewrite Hgd. unfold once_Do_InitCoverageData. by rewrite Ho. }
  split; [|done]. split; [done|]. exists rb. rewrite HB. split; [done|].
  rewrite Hgd'. by apply InitCoverageData_globalData_ext.
Qed.

Lemma X10_witness :
  once two_files = false ∧ globalData two_files = globalData_zero
  ∧ range_order (Blocks (Cover two_files)) ["b.go"; "a.go"]
  ∧ initialized (world (ConsumeCoverageData LittleEndian ["b.go"; "a.go"]
                          {| area := []; room := 64 |} two_files)).
Proof.
  assert (Hr : range_order (Blocks (Cover two_files)) ["b.go"; "a.go"]).
  { unfold range_order. vm_compute. apply perm_swap. }
  split; [reflexivity|]. split; [reflexivity|]. split; [exact Hr|].
  exact (proj1 (X10_first_flush_builds_the_catalog LittleEndian ["b.go"; "a.go"]
                  {| area := []; room := 64 |} two_files eq_refl eq_refl Hr)).
Defined.

(** X11: [InitCoverageData] does not close the gate of [once.Do].  After a
    direct call, the first flush runs it again on top of the catalog that
    is already there, and every registered file is then listed twice. *)
Theorem X11_flush_after_direct_init_builds_again {W} `{!Writer W} (bo : ByteOrder)
    (rb0 rb : list string) (w : W) (s : World) :
  once s = false → globalData s = globalData_zero →
  range_order (Blocks (Cover s)) rb0 → range_order (Blocks (Cover s)) rb →
  globalData (world (ConsumeCoverageData bo rb w (InitCoverageData rb0 s)))
    = globalData (InitCoverageData rb (InitCoverageData rb0 s))
  ∧ length (files (globalData
              (world (ConsumeCoverageData bo rb w (InitCoverageData rb0 s)))))
    = (2 * size (Blocks (Cover s)))%nat.
Proof.
  intros Ho Hg Hrb0 Hrb.
  destruct (ConsumeCoverageData_frame bo rb w (InitCoverageData rb0 s))
    as (_ & Hgd & _).
  assert (Hgd' : globalData (world (ConsumeCoverageData bo rb w (InitCoverageData rb0 s)))
                 = globalData (InitCoverageData rb (InitCoverageData rb0 s))).
  { rewrite Hgd. unfold once_Do_InitCoverageData.
    change (once (InitCoverageData rb0 s)) with (once s). by rewrite Ho. }
  split; [done|]. rewrite Hgd', !InitCoverageData_files, Hg. simpl.
  rewrite sort_Strings_Permutation, length_app, sort_Strings_Permutation.
  unfold range_order in Hrb0, Hrb.
  rewrite Hrb0, Hrb, length_fmap.
  rewrite <-(length_map_to_list (Blocks (Cover s))). lia.
Qed.

Lemma X11_witness :
  once one_file = false ∧ globalData one_file = globalData_zero
  ∧ range_order (Blocks (Cover one_file)) ["a.go"]
  ∧ files (globalData (world (ConsumeCoverageData LittleEndian ["a.go"]
                                {| area := []; room := 64 |}
                                (InitCoverageData ["a.go"] one_file))))
    = ["a.go"; "a.go"].
Proof.
  assert (Hr : range_order (Blocks (Cover one_file)) ["a.go"]).
  { unfold range_order. vm_compute. reflexivity. }
  split; [reflexivity|]. split; [reflexivity|]. split; [exact Hr|].
  destruct (X11_flush_after_direct_init_builds_again LittleEndian ["a.go"] ["a.go"]
              {| area := []; room := 64 |} one_file eq_refl eq_refl Hr Hr)
    as [-> _].
  vm_compute. reflexivity.
Defined.

(** What the doubled catalog does to a flush of the sample data: the hit
    in block 0 of "b.go" is reported under the PC of block 0 of "a.go", and
    the hit in block 2 of "b.go" indexes a row of two PCs out of range. *)
Example flush_after_direct_init_sample :
  let r := ConsumeCoverageData LittleEndian ["a.go"; "b.go"]
             {| area := []; room := 64 |}
             (InitCoverageData ["a.go"; "b.go"] two_files) in
  result r = Panics (runtime_index_out_of_range 2 2)
  ∧ Uint64 LittleEndian <$> (writes r).*1 = [1; 0].
Proof. vm_compute. split; reflexivity. Qed.

(** X12: both collection paths keep the invariants of the package: after
    [ConsumeCoverageData] as after [ClearCoverageData] the catalog is still
    the initialized one and every file's counters still match its block
    list in number. *)
Theorem X12_collection_keeps_the_invariants {W} `{!Writer W} (bo : ByteOrder)
    (rb rc : list string) (w : W) (s : World) :
  initialized s → aligned s →
  (initialized (world (ConsumeCoverageData bo rb w s))
   ∧ aligned (world (ConsumeCoverageData bo rb w s)))
  ∧ (initialized (ClearCoverageData rc s) ∧ aligned (ClearCoverageData rc s)).
Proof.
  intros Hinit Halign.
  destruct (ConsumeCoverageData_frame bo rb w s) as (HB & Hgd & Hdone).
  rewrite once_Do_InitCoverageData_done in Hgd by apply Hinit.
  split_and!.
  - by apply (initialized_ext s).
  - unfold aligned. by rewrite ConsumeCoverageData_lengths, HB.
  - apply (initialized_ext s); [done | apply Hinit | done..].
  - unfold aligned. by rewrite ClearCoverageData_lengths.
Qed.

Lemma X12_witness :
  initialized two_files_ready ∧ aligned two_files_ready
  ∧ aligned (world (ConsumeCoverageData LittleEndian [] {| area := []; room := 12 |}
                      two_files_ready)).
Proof.
  split; [exact two_files_ready_initialized|].
  split; [exact two_files_ready_aligned|].
  exact (proj2 (proj1 (X12_collection_keeps_the_invariants LittleEndian [] []
                         {| area := []; room := 12 |} two_files_ready
                         two_files_ready_initialized two_files_ready_aligned))).
Defined.

(** ** What a flush does to the counters and hands to the writer *)

Lemma only_cleared_refl (c : gmap string (list Z)) : only_cleared c c.
Proof. intros file index. by right. Qed.

Lemma only_cleared_trans (c c1 c2 : gmap string (list Z)) :
  only_cleared c c1 → only_cleared c1 c2 → only_cleared c c2.
Proof.
  intros H1 H2 file index.
  destruct (H2 file index) as [->| ->]; [by left | apply H1].
Qed.

Lemma only_cleared_StoreUint32 (file : string) (index : nat) (c : gmap string (list Z)) :
  only_cleared c (StoreUint32 file index 0 c).
Proof.
  intros file' index'. rewrite LoadUint32_StoreUint32_zero.
  case_decide; [by left | by right].
Qed.

Lemma consume_block_only_cleared {W} `{!Writer W} (bo : ByteOrder) (g : GlobalData)
    (fileIndex : nat) (file : string) (index : nat) (d : Drain W) :
  only_cleared (d_counters d)
    (d_counters (flow_state (consume_block bo g fileIndex file index d))).
Proof.
  unfold consume_block. case_decide; [apply only_cleared_refl|].
  destruct (slice_index (syntheticPCs g) _) as [row|p]; simpl;
    [|apply only_cleared_StoreUint32].
  destruct (slice_index row _) as [pc|p]; simpl; [|apply only_cleared_StoreUint32].
  destruct (Write _ _) as [w [n [e|]]]; [case_decide|];
    apply only_cleared_StoreUint32.
Qed.

Lemma for_each_only_cleared {W} `{!Writer W} (bo : ByteOrder) (g : GlobalData)
    (bs : list block_ref) (d : Drain W) :
  only_cleared (d_counters d)
    (d_counters (flow_state (for_each (consume_ref bo g) bs d))).
Proof.
  revert d. induction bs as [|b bs IH]; intros d; simpl; [apply only_cleared_refl|].
  pose proof (consume_block_only_cleared bo g (fileNum b) (fileName b) (blockNum b) d)
    as Hb.
  unfold consume_ref at 1.
  destruct (consume_block _ _ _ _ _ d) as [d1|r d1]; simpl in *; [|done].
  by eapply only_cleared_trans.
Qed.

(** X13: whatever the state and the writer, a flush changes counters only
    by storing zero: after it every counter is zero or what it was.  The
    number of counters per file and the registered blocks stay as they
    were. *)
Theorem X13_flush_only_clears_counters {W} `{!Writer W} (bo : ByteOrder)
    (rb : list string) (w : W) (s : World) :
  only_cleared (Counters (Cover s))
    (Counters (Cover (world (ConsumeCoverageData bo rb w s))))
  ∧ length <$> Counters (Cover (world (ConsumeCoverageData bo rb w s)))
    = length <$> Counters (Cover s)
  ∧ Blocks (Cover (world (ConsumeCoverageData bo rb w s))) = Blocks (Cover s).
Proof.
  split_and!.
  - destruct (ConsumeCoverageData_flow bo rb w s) as [_ ->].
    unfold consume_files. rewrite consume_files_flat.
    rewrite <-(once_Do_InitCoverageData_Cover rb s) at 1.
    apply (for_each_only_cleared bo _ _ (drain_start w _)).
  - apply ConsumeCoverageData_lengths.
  - apply ConsumeCoverageData_frame.
Qed.

Lemma slice_index_Return {A} (l : list A) (i : Z) (x : A) :
  slice_index l i = Return x → x ∈ l.
Proof.
  unfold slice_index. case_decide; [|done].
  destruct (l !! Z.to_nat i) as [y|] eqn:Hy; [|done].
  intros [= ->]. by eapply list_elem_of_lookup_2.
Qed.

Lemma PutUint64_length (bo : ByteOrder) (v : Z) : length (PutUint64 bo v) = 8%nat.
Proof. by destruct bo. Qed.

Lemma consume_block_genuine {W} `{!Writer W} (bo : ByteOrder) (g : GlobalData)
    (fileIndex : nat) (file : string) (index : nat) (d : Drain W) :
  Forall (genuine_event W bo g) (d_writes d) →
  Forall (genuine_event W bo g)
    (d_writes (flow_state (consume_block bo g fileIndex file index d))).
Proof.
  intros Hd. unfold consume_block. case_decide; [done|].
  destruct (slice_index (syntheticPCs g) _) as [row|p] eqn:Hrow; simpl; [|done].
  destruct (slice_index row _) as [pc|p] eqn:Hpc; simpl; [|done].
  assert (Hin : pc ∈ mjoin (syntheticPCs g)).
  { apply list_elem_of_join. exists row.
    split; [by eapply slice_index_Return..]. }
  destruct (Write (d_sink d) (PutUint64 bo pc)) as [w [n err]] eqn:Hw.
  assert (Hev : genuine_event W bo g (PutUint64 bo pc, (n, err))).
  { split; [by exists pc|]. by exists (d_sink d), w. }
  destruct err as [e|]; [case_decide|]; simpl;
    (apply Forall_app; split; [done | by constructor]).
Qed.

Lemma for_each_genuine {W} `{!Writer W} (bo : ByteOrder) (g : GlobalData)
    (bs : list block_ref) (d : Drain W) :
  Forall (genuine_event W bo g) (d_writes d) →
  Forall (genuine_event W bo g)
    (d_writes (flow_state (for_each (consume_ref bo g) bs d))).
Proof.
  revert d. induction bs as [|b bs IH]; intros d Hd; simpl; [done|].
  pose proof (consume_block_genuine bo g (fileNum b) (fileName b) (blockNum b) d Hd)
    as Hb.
  unfold consume_ref at 1.
  destruct (consume_block _ _ _ _ _ d) as [d1|r d1]; simpl in *; [|done].
  by apply IH.
Qed.

Lemma ConsumeCoverageData_genuine {W} `{!Writer W} (bo : ByteOrder)
    (rb : list string) (w : W) (s : World) :
  Forall (genuine_event W bo (globalData (once_Do_InitCoverageData rb s)))
    (writes (ConsumeCoverageData bo rb w s)).
Proof.
  destruct (ConsumeCoverageData_flow bo rb w s) as [-> _].
  unfold consume_files. rewrite consume_files_flat.
  apply for_each_genuine. constructor.
Qed.

(** X14: a flush hands nothing to the writer but synthetic PCs of the
    catalog: every buffer passed to [w.Write] is the 8-byte encoding of an
    entry of [globalData.syntheticPCs], and the answer logged with it is
    the writer's answer to that buffer. *)
Theorem X14_flush_writes_only_catalog_PCs {W} `{!Writer W} (bo : ByteOrder)
    (rb : list string) (w : W) (s : World) (ev : write_event) :
  ev ∈ writes (ConsumeCoverageData bo rb w s) →
  (∃ pc, pc ∈ mjoin (syntheticPCs (globalData (world (ConsumeCoverageData bo rb w s))))
         ∧ ev.1 = PutUint64 bo pc)
  ∧ length ev.1 = 8%nat
  ∧ ∃ w0 w1 : W, Write w0 ev.1 = (w1, ev.2).
Proof.
  intros Hev.
  pose proof (ConsumeCoverageData_genuine bo rb w s) as Hall.
  rewrite Forall_forall in Hall. destruct (Hall ev Hev) as [(pc & Hpc & Hbuf) Hans].
  destruct (ConsumeCoverageData_frame bo rb w s) as (_ & -> & _).
  split_and!; [by exists pc | | done].
  rewrite Hbuf. apply PutUint64_length.
Qed.

Lemma X14_witness :
  (PutUint64 LittleEndian 65536, (4, Some EOF))
    ∈ writes (ConsumeCoverageData LittleEndian [] {| area := []; room := 12 |}
                two_files_ready)
  ∧ length (PutUint64 LittleEndian 65536) = 8%nat.
Proof.
  assert (Hev : ((PutUint64 LittleEndian 65536, (4, Some EOF)) : write_event)
                ∈ writes (ConsumeCoverageData LittleEndian []
                            {| area := []; room := 12 |} two_files_ready)).
  { vm_compute. right. left. }
  split; [exact Hev|].
  destruct (X14_flush_writes_only_catalog_PCs LittleEndian []
              {| area := []; room := 12 |} two_files_ready _ Hev) as (_ & Hlen & _).
  exact Hlen.
Defined.

(** ** The byte count of a flush *)

Lemma int_small (z : Z) : - 2 ^ 63 ≤ z < 2 ^ 63 → int z = z.
Proof.
  intros Hz. unfold int.
  change (2 ^ 64) with (2 * 2 ^ 63). rewrite Z.mod_small; lia.
Qed.

Lemma sum_written_whole_buffers (l : list write_event) (t : Z) :
  Forall (λ ev : write_event, ev.2.1 = 8) l →
  0 ≤ t → t + 8 * len l < 2 ^ 63 →
  sum_written t l = t + 8 * len l.
Proof.
  unfold len. intros Hl. revert t.
  induction Hl as [|ev l Hev Hl IH]; intros t Ht Hsum; simpl in *; [lia|].
  unfold sum_written in *. simpl. rewrite Hev.
  unfold int_add. rewrite int_small by lia. rewrite IH by lia. lia.
Qed.

(** X15: with a writer that keeps [io.Writer]'s contract, a flush in which
    no write fails hands one buffer to the writer for every block that was
    hit and returns 8 bytes for each of them. *)
Theorem X15_flush_returns_8_bytes_per_hit {W} `{!Writer W} (bo : ByteOrder)
    (rb : list string) (w : W) (s : World) :
  honours_contract W →
  initialized s → aligned s →
  clean (writes (ConsumeCoverageData bo rb w s)) →
  hit_blocks s ≠ [] →
  8 * len (hit_blocks s) < 2 ^ 63 →
  length (writes (ConsumeCoverageData bo rb w s)) = length (hit_blocks s)
  ∧ result (ConsumeCoverageData bo rb w s) = Return (8 * len (hit_blocks s)).
Proof.
  intros Hcontract Hinit Halign Hclean Hhit Hbound.
  destruct (ConsumeCoverageData_scan bo rb w s Hinit Halign)
    as (scanned & rest & Hcat & Hlog & _ & Hend).
  destruct (Hend Hclean) as [-> Hres]. rewrite app_nil_r in Hcat. subst scanned.
  fold (hit_blocks s) in Hlog.
  assert (Hlen : length (writes (ConsumeCoverageData bo rb w s))
                 = length (hit_blocks s)).
  { apply (f_equal length) in Hlog. by rewrite !length_fmap in Hlog. }
  split; [done|].
  assert (Hwhole : Forall (λ ev : write_event, ev.2.1 = 8)
                     (writes (ConsumeCoverageData bo rb w s))).
  { pose proof (ConsumeCoverageData_genuine bo rb w s) as Hgen.
    unfold clean in Hclean.
    rewrite Forall_forall in Hgen, Hclean. apply Forall_forall.
    intros [buf [n err]] Hev.
    destruct (Hgen _ Hev) as [(pc & _ & Hbuf) (w0 & w1 & Hans)].
    specialize (Hclean _ Hev). cbn [fst snd] in *. subst err buf.
    apply Hcontract in Hans. rewrite Hans. unfold len.
    by rewrite PutUint64_length. }
  assert (Hsum : sum_written 0 (writes (ConsumeCoverageData bo rb w s))
                 = 8 * len (hit_blocks s)).
  { rewrite sum_written_whole_buffers; unfold len in *; rewrite ?Hlen; [lia|done|lia|lia]. }
  rewrite Hres, Hsum. rewrite decide_False; [done|].
  unfold len. destruct (hit_blocks s); [done | simpl; lia].
Qed.

Lemma kcov_area_honours_contract : honours_contract kcov_area.
Proof.
  intros w w' p n. unfold Write, kcov_area_Writer.
  case_decide; intros [= _ <-]; done.
Qed.

Lemma X15_witness :
  honours_contract kcov_area ∧ initialized two_files_ready ∧ aligned two_files_ready
  ∧ result (ConsumeCoverageData LittleEndian [] {| area := []; room := 64 |}
              two_files_ready)
    = Return (8 * len (hit_blocks two_files_ready)).
Proof.
  split; [exact kcov_area_honours_contract|].
  split; [exact two_files_ready_initialized|].
  split; [exact two_files_ready_aligned|].
  apply (X15_flush_returns_8_bytes_per_hit LittleEndian []
           {| area := []; room := 64 |} two_files_ready
           kcov_area_honours_contract two_files_ready_initialized
           two_files_ready_aligned).
  - vm_compute. repeat constructor.
  - vm_compute. discriminate.
  - vm_compute. reflexivity.
Defined.



(** ** Independence of the enumeration order of maps *)

Lemma InitCoverageData_order (rb1 rb2 : list string) (s : World) :
  rb1 ≡ₚ rb2 → InitCoverageData rb1 s = InitCoverageData rb2 s.
Proof.
  intros Hp. unfold InitCoverageData. rewrite !range_slice_append.
  by rewrite (sort_Strings_proper (files (globalData s) ++ rb1)
                                  (files (globalData s) ++ rb2)) by by rewrite Hp.
Qed.

(** X17: a flush does not depend on the order in which the runtime
    enumerates [coverdata.Cover.Blocks] during initialization: result,
    state, writer and log agree for any two enumeration orders. *)
Theorem X17_flush_independent_of_enumeration_order {W} `{!Writer W}
    (bo : ByteOrder) (rb1 rb2 : list string) (w : W) (s : World) :
  range_order (Blocks (Cover s)) rb1 → range_order (Blocks (Cover s)) rb2 →
  ConsumeCoverageData bo rb1 w s = ConsumeCoverageData bo rb2 w s.
Proof.
  unfold range_order. intros H1 H2.
  assert (Hs : once_Do_InitCoverageData rb1 s = once_Do_InitCoverageData rb2 s).
  { unfold once_Do_InitCoverageData. destruct (once s); [done|].
    by rewrite (InitCoverageData_order rb1 rb2) by by rewrite H1, H2. }
  unfold ConsumeCoverageData. by rewrite Hs.
Qed.

Lemma X17_witness :
  range_order (Blocks (Cover two_files)) ["b.go"; "a.go"]
  ∧ range_order (Blocks (Cover two_files)) ["a.go"; "b.go"]
  ∧ ConsumeCoverageData LittleEndian ["b.go"; "a.go"] {| area := []; room := 64 |} two_files
    = ConsumeCoverageData LittleEndian ["a.go"; "b.go"] {| area := []; room := 64 |} two_files.
Proof.
  assert (H1 : range_order (Blocks (Cover two_files)) ["b.go"; "a.go"]).
  { unfold range_order. vm_compute. apply perm_swap. }
  assert (H2 : range_order (Blocks (Cover two_files)) ["a.go"; "b.go"]).
  { unfold range_order. vm_compute. reflexivity. }
  split; [exact H1|]. split; [exact H2|].
  exact (X17_flush_independent_of_enumeration_order LittleEndian _ _
           {| area := []; room := 64 |} two_files H1 H2).
Defined.

Lemma ClearCoverageData_Counters (rc : list string) (s : World) :
  range_order (Counters (Cover s)) rc →
  Counters (Cover (ClearCoverageData rc s))
  = (λ counters, replicate (length counters) 0) <$> Counters (Cover s).
Proof.
  intros Hrc. apply map_eq. intros file.
  rewrite ClearCoverageData_Counters_lookup, lookup_fmap.
  destruct (decide (file ∈ rc)) as [Hin|Hin]; [done|].
  destruct (Counters (Cover s) !! file) as [cs|] eqn:Hf; [|done].
  exfalso. apply Hin. apply (range_order_elem_of _ _ _ Hrc). eauto.
Qed.

Lemma ClearCoverageData_world (rc : list string) (s : World) :
  ClearCoverageData rc s = set_Counters (Counters (Cover (ClearCoverageData rc s))) s.
Proof. done. Qed.

Lemma range_order_fmap {A B} (f : A → B) (m : gmap string A) (keys : list string) :
  range_order m keys → range_order (f <$> m) keys.
Proof.
  unfold range_order. intros ->. rewrite map_to_list_fmap.
  assert (Hfst : (prod_map id f <$> map_to_list m).*1 = (map_to_list m).*1).
  { rewrite <-list_fmap_compose. apply list_fmap_ext. by intros i [k x] _. }
  by rewrite Hfst.
Qed.

(** X18: the result of [ClearCoverageData] does not depend on the order in
    which the runtime enumerates [coverdata.Cover.Counters], and clearing
    twice is the same as clearing once. *)
Theorem X18_reset_order_independent_and_idempotent (rc1 rc2 : list string) (s : World) :
  range_order (Counters (Cover s)) rc1 → range_order (Counters (Cover s)) rc2 →
  ClearCoverageData rc1 s = ClearCoverageData rc2 s
  ∧ ClearCoverageData rc2 (ClearCoverageData rc1 s) = ClearCoverageData rc1 s.
Proof.
  intros H1 H2.
  assert (Heq : ClearCoverageData rc1 s = ClearCoverageData rc2 s).
  { rewrite (ClearCoverageData_world rc1), (ClearCoverageData_world rc2).
    by rewrite !ClearCoverageData_Counters. }
  split; [done|].
  rewrite (ClearCoverageData_world rc2 (ClearCoverageData rc1 s)).
  rewrite (ClearCoverageData_Counters rc2 (ClearCoverageData rc1 s)).
  2: { rewrite (ClearCoverageData_Counters rc1 s H1). by apply range_order_fmap. }
  rewrite (ClearCoverageData_world rc1 s) at 3.
  rewrite (ClearCoverageData_Counters rc1 s H1). unfold set_Counters. simpl.
  do 2 f_equal. rewrite <-map_fmap_compose. apply map_fmap_ext.
  intros file cs _. simpl. by rewrite length_replicate.
Qed.

Lemma X18_witness :
  range_order (Counters (Cover two_files)) ["b.go"; "a.go"]
  ∧ range_order (Counters (Cover two_files)) ["a.go"; "b.go"]
  ∧ ClearCoverageData ["b.go"; "a.go"] two_files
    = ClearCoverageData ["a.go"; "b.go"] two_files.
Proof.
  assert (H1 : range_order (Counters (Cover two_files)) ["b.go"; "a.go"]).
  { unfold range_order. vm_compute. apply perm_swap. }
  assert (H2 : range_order (Counters (Cover two_files)) ["a.go"; "b.go"]).
  { unfold range_order. vm_compute. reflexivity. }
  split; [exact H1|]. split; [exact H2|].
  exact (proj1 (X18_reset_order_independent_and_idempotent _ _ two_files H1 H2)).
Defined.

(** ** The wire format *)

Lemma byte_to_Z_of_Z (z : Z) : byte_to_Z (byte_of_Z z) = z mod 256.
Proof.
  unfold byte_to_Z, byte_of_Z.
  assert (Hz : 0 ≤ z mod 256 < 256) by (apply Z.mod_pos_bound; lia).
  destruct (Byte.of_N (Z.to_N (z mod 256))) as [b|] eqn:Hb; simpl.
  - apply Byte.to_of_N in Hb. rewrite Hb. lia.
  - apply Byte.of_N_None_iff in Hb. lia.
Qed.

Lemma Uint64_PutUint64 (bo : ByteOrder) (v : Z) :
  0 ≤ v < 2 ^ 64 → Uint64 bo (PutUint64 bo v) = v.
Proof.
  intros Hv.
  assert (Hle : Uint64 LittleEndian (PutUint64 LittleEndian v) = v).
  { unfold Uint64, PutUint64. cbn [fmap list_fmap foldr].
    rewrite !byte_to_Z_of_Z, !Z.shiftr_div_pow2 by lia.
    change (2 ^ (8 * 0)) with 1. change (2 ^ (8 * 1)) with 256.
    change (2 ^ (8 * 2)) with 65536. change (2 ^ (8 * 3)) with 16777216.
    change (2 ^ (8 * 4)) with 4294967296. change (2 ^ (8 * 5)) with 1099511627776.
    change (2 ^ (8 * 6)) with 281474976710656.
    change (2 ^ (8 * 7)) with 72057594037927936.
    change (2 ^ 64) with 18446744073709551616 in Hv.
    rewrite Z.div_1_r.
    assert (E2 : v / 65536 = v / 256 / 256) by by rewrite Z.div_div by lia.
    assert (E3 : v / 16777216 = v / 65536 / 256) by by rewrite Z.div_div by lia.
    assert (E4 : v / 4294967296 = v / 16777216 / 256) by by rewrite Z.div_div by lia.
    assert (E5 : v / 1099511627776 = v / 4294967296 / 256)
      by by rewrite Z.div_div by lia.
    assert (E6 : v / 281474976710656 = v / 1099511627776 / 256)
      by by rewrite Z.div_div by lia.
    assert (E7 : v / 72057594037927936 = v / 281474976710656 / 256)
      by by rewrite Z.div_div by lia.
    assert (E8 : v / 72057594037927936 / 256 = 0).
    { rewrite Z.div_div by lia. apply Z.div_small. lia. }
    set (q1 := v / 256) in *. set (q2 := v / 65536) in *.
    set (q3 := v / 16777216) in *. set (q4 := v / 4294967296) in *.
    set (q5 := v / 1099511627776) in *. set (q6 := v / 281474976710656) in *.
    set (q7 := v / 72057594037927936) in *.
    pose proof (Z.div_mod v 256). pose proof (Z.div_mod q1 256).
    pose proof (Z.div_mod q2 256). pose proof (Z.div_mod q3 256).
    pose proof (Z.div_mod q4 256). pose proof (Z.div_mod q5 256).
    pose proof (Z.div_mod q6 256). pose proof (Z.div_mod q7 256).
    fold q1 in H. rewrite <-E2 in *. rewrite <-E3 in *. rewrite <-E4 in *.
    rewrite <-E5 in *. rewrite <-E6 in *. rewrite <-E7 in *.
    generalize dependent (v mod 256). generalize dependent (q1 mod 256).
    generalize dependent (q2 mod 256). generalize dependent (q3 mod 256).
    generalize dependent (q4 mod 256). generalize dependent (q5 mod 256).
    generalize dependent (q6 mod 256). generalize dependent (q7 mod 256).
    intros. lia. }
  destruct bo; [done|].
  unfold Uint64, PutUint64. rewrite reverse_involutive. exact Hle.
Qed.


(** X19: [PutUint64] fills the 8-byte buffer so that the reader's
    [Uint64] of the same byte order gets the synthetic PC back, for every
    64-bit value and both byte orders. *)
Theorem X19_PutUint64_round_trip (bo : ByteOrder) (v : Z) :
  0 ≤ v < 2 ^ 64 →
  length (PutUint64 bo v) = 8%nat ∧ Uint64 bo (PutUint64 bo v) = v.
Proof.
  intros Hv. split; [apply PutUint64_length | by apply Uint64_PutUint64].
Qed.

Lemma X19_witness :
  0 ≤ 65538 < 2 ^ 64 ∧ Uint64 BigEndian (PutUint64 BigEndian 65538) = 65538.
Proof.
  assert (Hv : 0 ≤ 65538 < 2 ^ 64) by (split; [lia | reflexivity]).
  split; [exact Hv|].
  exact (proj2 (X19_PutUint64_round_trip BigEndian 65538 Hv)).
Defined.

(** ** The dump *)

Lemma range_slice_join {A B} (body : nat → A → list B → list B)
    (F : nat → A → list B) (l : list A) (i : nat) (acc : list B) :
  (∀ k x out, body k x out = out ++ F k x) →
  range_slice body i l acc = acc ++ mjoin (imap (λ k, F (i + k)%nat) l).
Proof.
  intros Hbody. revert i acc. induction l as [|x l IH]; intros i acc; simpl.
  - by rewrite app_nil_r.
  - rewrite IH, Hbody, <-app_assoc, Nat.add_0_r. do 3 f_equal.
    apply imap_ext. intros k y _. simpl. f_equal. lia.
Qed.

Lemma imap_as_seq {A B} (d : A) (G : nat → A → B) (l : list A) :
  imap G l = (λ j, G j (default d (l !! j))) <$> seq 0 (length l).
Proof.
  apply list_eq. intros j. rewrite list_lookup_imap, list_lookup_fmap.
  destruct (l !! j) as [x|] eqn:Hj; simpl.
  - pose proof (lookup_lt_Some _ _ _ Hj). rewrite lookup_seq_lt by done.
    simpl. by rewrite Hj.
  - apply lookup_ge_None in Hj. by rewrite lookup_seq_ge.
Qed.

Lemma block_lines_rows (s : World) (fs : list string) (i : nat) :
  mjoin (imap (λ k file,
                 mjoin (imap (λ j block,
                                [pc_line (calculatePC (Z.of_nat (i + k)) (Z.of_nat j));
                                 position_line file block])
                             (map_index (Blocks (Cover s)) file)))
              fs)
  = mjoin (block_lines s
             <$> blocks_from (λ file, length (map_index (Blocks (Cover s)) file)) i fs).
Proof.
  revert i. induction fs as [|file fs IH]; intros i; [done|].
  rewrite imap_cons. cbn [mjoin list_join blocks_from].
  rewrite fmap_app, join_app. f_equal.
  - rewrite (imap_as_seq {| Line0 := 0; Col0 := 0; Line1 := 0; Col1 := 0; Stmts := 0 |}).
    rewrite <-list_fmap_compose, Nat.add_0_r. done.
  - rewrite <-IH. f_equal. apply imap_ext. intros k f _. simpl.
    by replace (i + S k)%nat with (S i + k)%nat by lia.
Qed.

Lemma PrintAllPCs_flat (s : World) :
  PrintAllPCs s = mjoin (block_lines s <$> catalog_blocks s).
Proof.
  unfold PrintAllPCs, catalog_blocks. rewrite <-block_lines_rows.
  rewrite (range_slice_join _
    (λ fileNum file,
       mjoin (imap (λ j block,
                      [pc_line (calculatePC (Z.of_nat fileNum) (Z.of_nat j));
                       position_line file block])
                   (map_index (Blocks (Cover s)) file)))).
  - done.
  - intros k file out.
    apply (range_slice_join _
      (λ j block, [pc_line (calculatePC (Z.of_nat k) (Z.of_nat j));
                   position_line file block])).
    intros j block out'. by rewrite <-app_assoc.
Qed.

Lemma join_pairs_lookup {A B} (f g : A → B) (l : list A) (k : nat) :
  mjoin ((λ x, [f x; g x]) <$> l) !! (2 * k)%nat = f <$> l !! k
  ∧ mjoin ((λ x, [f x; g x]) <$> l) !! (2 * k + 1)%nat = g <$> l !! k.
Proof.
  revert k. induction l as [|x l IH]; intros k; [done|].
  destruct k as [|k]; [done|].
  replace (2 * S k)%nat with (S (S (2 * k))) by lia.
  replace (S (S (2 * k)) + 1)%nat with (S (S (2 * k + 1))) by lia.
  apply IH.
Qed.

Lemma join_pairs_length {A B} (f g : A → B) (l : list A) :
  length (mjoin ((λ x, [f x; g x]) <$> l)) = (2 * length l)%nat.
Proof.
  induction l as [|x l IH]; [done|].
  change (length (mjoin ((λ x, [f x; g x]) <$> x :: l)))
    with (S (S (length (mjoin ((λ x, [f x; g x]) <$> l))))).
  rewrite IH. simpl. lia.
Qed.

(** X20: [PrintAllPCs] prints two lines for every block the catalog loops
    visit and nothing else: for the block at position [k] of the catalog,
    line [2k] is the hexadecimal synthetic PC [calculatePC(file ordinal,
    block ordinal)] and line [2k+1] the file name with the block's
    position. *)
Theorem X20_PrintAllPCs_two_lines_per_block (s : World) (k : nat) (b : block_ref) :
  catalog_blocks s !! k = Some b →
  length (PrintAllPCs s) = (2 * length (catalog_blocks s))%nat
  ∧ PrintAllPCs s !! (2 * k)%nat = Some (pc_line (pc_of b))
  ∧ ∃ block,
      map_index (Blocks (Cover s)) (fileName b) !! blockNum b = Some block
      ∧ PrintAllPCs s !! (2 * k + 1)%nat = Some (position_line (fileName b) block).
Proof.
  intros Hk. rewrite PrintAllPCs_flat. unfold block_lines.
  destruct (join_pairs_lookup (λ b, pc_line (pc_of b))
              (λ b, position_line (fileName b) (block_at s b))
              (catalog_blocks s) k) as [Hpc Hpos].
  rewrite Hk in Hpc, Hpos. split_and!; [apply join_pairs_length | done |].
  apply list_elem_of_lookup_2, elem_of_blocks_from in Hk as (_ & _ & _ & Hj).
  apply lookup_lt_is_Some in Hj as [block Hblock].
  exists block. split; [done|]. rewrite Hpos. cbn [fmap option_fmap option_map].
  unfold block_at. by rewrite Hblock.
Qed.

Lemma X20_witness :
  catalog_blocks two_files_ready !! 2%nat
    = Some {| fileNum := 1; fileName := "b.go"; blockNum := 0 |}
  ∧ PrintAllPCs two_files_ready !! 4%nat = Some (pc_line 65536).
Proof.
  assert (Hk : catalog_blocks two_files_ready !! 2%nat
               = Some {| fileNum := 1; fileName := "b.go"; blockNum := 0 |})
    by (vm_compute; reflexivity).
  split; [exact Hk|].
  destruct (X20_PrintAllPCs_two_lines_per_block two_files_ready 2 _ Hk)
    as (_ & Hpc & _).
  exact Hpc.
Defined.

(** ** What a flush over a sound catalog never does *)

Lemma consume_files_stop_unclean {W} `{!Writer W} (bo : ByteOrder) (w : W) (s : World) :
  initialized s → aligned s →
  match consume_files bo (globalData s) (drain_start w s) with
  | Continue _ => True
  | Stop _ d' => ¬ clean (d_writes d')
  end.
Proof.
  intros Hinit Halign.
  assert (Hflat : consume_files bo (globalData s) (drain_start w s)
                  = for_each (consume_ref bo (globalData s)) (catalog_blocks s)
                             (drain_start w s)).
  { unfold consume_files. rewrite consume_files_flat. f_equal.
    apply blocks_from_ext. intros file. by apply aligned_lengths. }
  assert (Hnd : NoDup (block_key <$> catalog_blocks s)).
  { by apply blocks_from_NoDup_keys, initialized_files_NoDup. }
  destruct (scan_blocks bo (globalData s) (catalog_blocks s) (drain_start w s) Hnd)
    as (scanned & rest & _ & _ & _ & Hend).
  { intros b Hb. by apply initialized_pc_lookup. }
  rewrite Hflat. by destruct (for_each _ _ _).
Qed.

(** X21: over an initialized catalog with aligned counters a flush never
    indexes [globalData.syntheticPCs] out of range: it does not end in a
    runtime index panic, whatever the writer answers. *)
Theorem X21_flush_never_indexes_out_of_range {W} `{!Writer W} (bo : ByteOrder)
    (rb : list string) (w : W) (s : World) (i n : Z) :
  initialized s → aligned s →
  result (ConsumeCoverageData bo rb w s) ≠ Panics (runtime_index_out_of_range i n).
Proof.
  intros Hinit Halign.
  pose proof (consume_files_stop_unclean bo w s Hinit Halign) as Hstop.
  pose proof (drained_consume_files bo (globalData s) (drain_start w s)) as Hd.
  unfold ConsumeCoverageData.
  rewrite once_Do_InitCoverageData_done by apply Hinit.
  change {| d_counters := Counters (Cover s); d_sink := w; d_total := 0; d_writes := [] |}
    with (drain_start w s).
  destruct (consume_files bo (globalData s) (drain_start w s)) as [d|r d]; simpl.
  - by case_decide.
  - intros ->. apply Hstop.
    inversion Hd as [|new ? ? ? Hw Hc| |]; subst. simpl in Hw. by rewrite Hw.
Qed.

Lemma X21_witness :
  initialized two_files_ready ∧ aligned two_files_ready
  ∧ result (ConsumeCoverageData LittleEndian [] Broken two_files_ready)
    ≠ Panics (runtime_index_out_of_range 2 2).
Proof.
  split; [exact two_files_ready_initialized|].
  split; [exact two_files_ready_aligned|].
  exact (X21_flush_never_indexes_out_of_range LittleEndian [] Broken two_files_ready
           2 2 two_files_ready_initialized two_files_ready_aligned).
Defined.




